(** * docker-compose facade: argument construction and invocation

    A shallow embedding of the [DockerCompose] class (constructor,
    [command], [up], [run], [rm], [down] and the private helpers
    [_getFile], [_getFiles], [_getFilesArguments], [_getGlobalArguments],
    [_joinArgumentsRecord], [_execa]) together with the small part of the
    JavaScript runtime the class relies on: truthiness, number and string
    conversion, own-property enumeration order, promises and [Promise.all]. *)

From stdpp Require Import base list sets strings pretty sorting.
From Stdlib Require Import ZArith DecimalString.

Open Scope string_scope.
Open Scope list_scope.

(** ** JavaScript values *)

Module JS.

(** Numbers are modelled by the integers: the numeric options of the
    class ([scale] replica counts, [timeout] seconds) are integer valued.
    [NaN], the infinities and fractions are outside the model. *)
Definition number := Z.

(** [Number::toString] of an integer of magnitude below 10^21 is its signed
    decimal numeral. From 10^21 on JavaScript prints an exponent form, so
    the definition stands for the code only within [printed_in_decimal]. *)
Definition printed_in_decimal (n : number) : Prop :=
  (- 10 ^ 21 < n < 10 ^ 21)%Z.

Definition Number_toString (n : number) : string := pretty n.

(** [ToBoolean]: [false], [0] and the empty string are falsy. *)
Class Truthy (A : Type) := truthy : A → bool.

#[export] Instance truthy_bool : Truthy bool := λ b, b.
#[export] Instance truthy_string : Truthy string :=
  λ s, match s with EmptyString => false | String _ _ => true end.
#[export] Instance truthy_number : Truthy number :=
  λ n, negb (n =? 0)%Z.

(** An optional field is [undefined] ([None]) or a value; [undefined] is
    falsy. *)
#[export] Instance truthy_option `{Truthy A} : Truthy (option A) :=
  λ o, match o with Some a => truthy a | None => false end.

(** [...(x ? f(x) : [])] *)
Definition spread_if `{Truthy A} {B} (x : option A) (f : A → list B) : list B :=
  match x with
  | Some a => if truthy a then f a else []
  | None => []
  end.

(** Destructuring default [x = d]: applies to [undefined] only. *)
Definition or_default {A} (x : option A) (d : A) : A := default d x.

(** Values of a [Record<string, number | string>]. *)
Inductive value :=
| VNum (n : number)
| VStr (s : string).

Definition ToString (v : value) : string :=
  match v with
  | VNum n => Number_toString n
  | VStr s => s
  end.

(** An ordinary object with string keys: its own properties in creation
    order. *)
Definition object (V : Type) := list (string * V).

(** [o[k] = v]: an existing property keeps its place. *)
Fixpoint set {V} (o : object V) (k : string) (v : V) : object V :=
  match o with
  | [] => [(k, v)]
  | (k', v') :: o' =>
      if decide (k' = k) then (k, v) :: o' else (k', v') :: set o' k v
  end.

(** Object literal [{ k1: v1, k2: v2, ... }]. *)
Definition literal {V} (props : list (string * V)) : object V :=
  foldl (λ o kv, set o kv.1 kv.2) [] props.

(** A property key is an array index when it is the canonical numeral of
    an integer below 2^32 - 1. *)
Definition array_index (k : string) : option N :=
  match NilEmpty.uint_of_string k with
  | Some u =>
      let n := N.of_uint u in
      if decide (pretty n = k ∧ (n < 2 ^ 32 - 1)%N) then Some n else None
  | None => None
  end.

Definition index_le {V} (a b : N * (string * V)) : Prop := (a.1 ≤ b.1)%N.

#[export] Instance index_le_dec {V} (a b : N * (string * V)) :
  Decision (index_le a b) := N.le_dec a.1 b.1.

(** [Object.entries]: array-index keys first, in ascending numeric
    order, then the other string keys in creation order. *)
Definition Object_entries {V} (o : object V) : list (string * V) :=
  (snd <$> merge_sort index_le
     (omap (λ kv, (λ i, (i, kv)) <$> array_index kv.1) o))
  ++ filter (λ kv, array_index kv.1 = None) o.

(** [[k, v].join(separator)] *)
Definition entry_join (separator : string) (entry : string * value) : string :=
  entry.1 +:+ separator +:+ ToString entry.2.

End JS.

Import JS.

(** ** Option bags of the subcommands *)

Inductive Separator := SepEquals | SepColon.

Definition separator_string (s : Separator) : string :=
  match s with SepEquals => "=" | SepColon => ":" end.

Inductive PullPolicy := pull_always | pull_missing | pull_never.

Definition PullPolicy_string (p : PullPolicy) : string :=
  match p with
  | pull_always => "always"
  | pull_missing => "missing"
  | pull_never => "never"
  end.

(** The three literals are non-empty strings, hence truthy. *)
#[export] Instance truthy_PullPolicy : Truthy PullPolicy :=
  λ p, truthy (PullPolicy_string p).

Inductive RmiMode := rmi_local | rmi_all.

Definition RmiMode_string (r : RmiMode) : string :=
  match r with rmi_local => "local" | rmi_all => "all" end.

#[export] Instance truthy_RmiMode : Truthy RmiMode :=
  λ r, truthy (RmiMode_string r).

Record UpOptions := {
  up_abortOnContainerExit : option bool;
  up_alwaysRecreateDeps : option bool;
  up_attach : option (list string);
  up_attachDependencies : option bool;
  up_build : option bool;
  up_detach : option bool;
  up_exitCodeFrom : option string;
  up_forceRecreate : option bool;
  up_noAttach : option (list string);
  up_noBuild : option bool;
  up_noDeps : option bool;
  up_noLogPrefix : option bool;
  up_noRecreate : option bool;
  up_noStart : option bool;
  up_pull : option PullPolicy;
  up_quietPull : option bool;
  up_removeOrphans : option bool;
  up_renewAnonVolumes : option bool;
  up_scale : option (object number);
  up_timeout : option number;
  up_timestamps : option bool;
  up_wait : option bool;
}.

(** The empty options object [{}]. *)
Definition UpOptions_empty : UpOptions :=
  {| up_abortOnContainerExit := None; up_alwaysRecreateDeps := None;
     up_attach := None; up_attachDependencies := None; up_build := None;
     up_detach := None; up_exitCodeFrom := None; up_forceRecreate := None;
     up_noAttach := None; up_noBuild := None; up_noDeps := None;
     up_noLogPrefix := None; up_noRecreate := None; up_noStart := None;
     up_pull := None; up_quietPull := None; up_removeOrphans := None;
     up_renewAnonVolumes := None; up_scale := None; up_timeout := None;
     up_timestamps := None; up_wait := None |}.

Record RunOptions := {
  run_build : option bool;
  run_detach : option bool;
  run_entrypoint : option string;
  run_env : option (object string);
  run_interactive : option bool;
  run_label : option (object string);
  run_name : option string;
  run_noTTY : option bool;
  run_noDeps : option bool;
  run_publish : option (object string);
  run_quietPull : option bool;
  run_removeOrphans : option bool;
  run_rm : option bool;
  run_servicePorts : option bool;
  run_useAliases : option bool;
  run_user : option string;
  run_volume : option (object string);
  run_workdir : option string;
}.

Definition RunOptions_empty : RunOptions :=
  {| run_build := None; run_detach := None; run_entrypoint := None;
     run_env := None; run_interactive := None; run_label := None;
     run_name := None; run_noTTY := None; run_noDeps := None;
     run_publish := None; run_quietPull := None; run_removeOrphans := None;
     run_rm := None; run_servicePorts := None; run_useAliases := None;
     run_user := None; run_volume := None; run_workdir := None |}.

Record RmOptions := {
  rm_stop : option bool;
  rm_force : option bool;
  rm_volumes : option bool;
}.

Definition RmOptions_empty : RmOptions :=
  {| rm_stop := None; rm_force := None; rm_volumes := None |}.

Record DownOptions := {
  down_removeOrphans : option bool;
  down_rmi : option RmiMode;
  down_timeout : option number;
  down_volumes : option string;
}.

Definition DownOptions_empty : DownOptions :=
  {| down_removeOrphans := None; down_rmi := None; down_timeout := None;
     down_volumes := None |}.

(** Object spread with one field replaced: [{ ...o, scale }],
    [{ ...o, timeout }], [{ ...o, env }]. *)
Definition up_with_scale (o : UpOptions) (scale : option (object number))
    : UpOptions :=
  {| up_abortOnContainerExit := up_abortOnContainerExit o;
     up_alwaysRecreateDeps := up_alwaysRecreateDeps o;
     up_attach := up_attach o;
     up_attachDependencies := up_attachDependencies o;
     up_build := up_build o; up_detach := up_detach o;
     up_exitCodeFrom := up_exitCodeFrom o;
     up_forceRecreate := up_forceRecreate o; up_noAttach := up_noAttach o;
     up_noBuild := up_noBuild o; up_noDeps := up_noDeps o;
     up_noLogPrefix := up_noLogPrefix o; up_noRecreate := up_noRecreate o;
     up_noStart := up_noStart o; up_pull := up_pull o;
     up_quietPull := up_quietPull o; up_removeOrphans := up_removeOrphans o;
     up_renewAnonVolumes := up_renewAnonVolumes o; up_scale := scale;
     up_timeout := up_timeout o; up_timestamps := up_timestamps o;
     up_wait := up_wait o |}.

Definition up_with_timeout (o : UpOptions) (timeout : option number)
    : UpOptions :=
  {| up_abortOnContainerExit := up_abortOnContainerExit o;
     up_alwaysRecreateDeps := up_alwaysRecreateDeps o;
     up_attach := up_attach o;
     up_attachDependencies := up_attachDependencies o;
     up_build := up_build o; up_detach := up_detach o;
     up_exitCodeFrom := up_exitCodeFrom o;
     up_forceRecreate := up_forceRecreate o; up_noAttach := up_noAttach o;
     up_noBuild := up_noBuild o; up_noDeps := up_noDeps o;
     up_noLogPrefix := up_noLogPrefix o; up_noRecreate := up_noRecreate o;
     up_noStart := up_noStart o; up_pull := up_pull o;
     up_quietPull := up_quietPull o; up_removeOrphans := up_removeOrphans o;
     up_renewAnonVolumes := up_renewAnonVolumes o; up_scale := up_scale o;
     up_timeout := timeout; up_timestamps := up_timestamps o;
     up_wait := up_wait o |}.

Definition run_with_env (o : RunOptions) (env : option (object string))
    : RunOptions :=
  {| run_build := run_build o; run_detach := run_detach o;
     run_entrypoint := run_entrypoint o; run_env := env;
     run_interactive := run_interactive o; run_label := run_label o;
     run_name := run_name o; run_noTTY := run_noTTY o;
     run_noDeps := run_noDeps o; run_publish := run_publish o;
     run_quietPull := run_quietPull o;
     run_removeOrphans := run_removeOrphans o; run_rm := run_rm o;
     run_servicePorts := run_servicePorts o;
     run_useAliases := run_useAliases o; run_user := run_user o;
     run_volume := run_volume o; run_workdir := run_workdir o |}.

Definition down_with_timeout (o : DownOptions) (timeout : option number)
    : DownOptions :=
  {| down_removeOrphans := down_removeOrphans o; down_rmi := down_rmi o;
     down_timeout := timeout; down_volumes := down_volumes o |}.

(** ** Argument construction *)

(** [_joinArgumentsRecord(option, separator, scale)] *)
Definition _joinArgumentsRecord (option : string) (separator : Separator)
    (scale : object value) : list string :=
  let entries := Object_entries scale in
  entries ≫= (λ entry, [option; entry_join (separator_string separator) entry]).

(** The array literal [up] hands to [command]. *)
Definition up_arguments (o : UpOptions) : list string :=
  let attach := or_default (up_attach o) [] in
  let detach := or_default (up_detach o) true in
  let noAttach := or_default (up_noAttach o) [] in
  let scale := or_default (up_scale o) [] in
  ["up"]
  ++ spread_if (up_abortOnContainerExit o) (λ _, ["--abort-on-container-exit"])
  ++ spread_if (up_alwaysRecreateDeps o) (λ _, ["--always-recreate-deps"])
  ++ ((λ service, "--attach=" +:+ service) <$> attach)
  ++ spread_if (up_attachDependencies o) (λ _, ["--attach-dependencies"])
  ++ spread_if (up_build o) (λ _, ["--build"])
  ++ spread_if (Some detach) (λ _, ["--detach"])
  ++ spread_if (up_exitCodeFrom o) (λ x, ["--exit-code-from=" +:+ x])
  ++ spread_if (up_forceRecreate o) (λ _, ["--force-recreate"])
  ++ ((λ service, "--no-attach=" +:+ service) <$> noAttach)
  ++ spread_if (up_noBuild o) (λ _, ["--no-build"])
  ++ spread_if (up_noDeps o) (λ _, ["--no-deps"])
  ++ spread_if (up_noLogPrefix o) (λ _, ["--no-log-prefix"])
  ++ spread_if (up_noRecreate o) (λ _, ["--no-recreate"])
  ++ spread_if (up_noStart o) (λ _, ["--no-start"])
  ++ spread_if (up_pull o) (λ p, ["--pull=" +:+ PullPolicy_string p])
  ++ spread_if (up_quietPull o) (λ _, ["--quiet-pull"])
  ++ spread_if (up_removeOrphans o) (λ _, ["--remove-orphans"])
  ++ spread_if (up_renewAnonVolumes o) (λ _, ["--renew-anon-volumes"])
  ++ _joinArgumentsRecord "--scale" SepEquals (prod_map id VNum <$> scale)
  ++ spread_if (up_timeout o) (λ t, ["--timeout=" +:+ Number_toString t])
  ++ spread_if (up_timestamps o) (λ _, ["--timestamps"])
  ++ spread_if (up_wait o) (λ _, ["--wait"]).

(** The array literal [run] hands to [command]. *)
Definition run_arguments (service : string) (command : option string)
    (args : list string) (o : RunOptions) : list string :=
  let detach := or_default (run_detach o) true in
  let env := or_default (run_env o) [] in
  let label := or_default (run_label o) [] in
  let publish := or_default (run_publish o) [] in
  let volume := or_default (run_volume o) [] in
  ["run"]
  ++ spread_if (run_build o) (λ _, ["--build"])
  ++ spread_if (Some detach) (λ _, ["--detach"])
  ++ spread_if (run_entrypoint o) (λ x, ["--entrypoint"; x])
  ++ _joinArgumentsRecord "--env" SepEquals (prod_map id VStr <$> env)
  ++ spread_if (run_interactive o) (λ _, ["--interactive"])
  ++ _joinArgumentsRecord "--label" SepEquals (prod_map id VStr <$> label)
  ++ spread_if (run_name o) (λ x, ["--name"; x])
  ++ spread_if (run_noTTY o) (λ _, ["--no-TTY"])
  ++ spread_if (run_noDeps o) (λ _, ["--no-deps"])
  ++ _joinArgumentsRecord "--publish" SepColon (prod_map id VStr <$> publish)
  ++ spread_if (run_quietPull o) (λ _, ["--quiet-pull"])
  ++ spread_if (run_removeOrphans o) (λ _, ["--remove-orphans"])
  ++ spread_if (run_rm o) (λ _, ["--rm"])
  ++ spread_if (run_servicePorts o) (λ _, ["--service-ports"])
  ++ spread_if (run_useAliases o) (λ _, ["--use-aliases"])
  ++ spread_if (run_user o) (λ x, ["--user"; x])
  ++ _joinArgumentsRecord "--volume" SepColon (prod_map id VStr <$> volume)
  ++ spread_if (run_workdir o) (λ x, ["--workdir"; x])
  ++ [service]
  ++ spread_if command (λ c, [c])
  ++ args.

(** The array literal [rm] hands to [command]. *)
Definition rm_arguments (o : RmOptions) : list string :=
  ["rm"]
  ++ spread_if (rm_stop o) (λ _, ["--stop"])
  ++ spread_if (rm_force o) (λ _, ["--force"])
  ++ spread_if (rm_volumes o) (λ _, ["--volumes"]).

(** The array literal [down] hands to [command]. *)
Definition down_arguments (o : DownOptions) : list string :=
  ["down"]
  ++ spread_if (down_removeOrphans o) (λ _, ["--remove-orphans"])
  ++ spread_if (down_rmi o) (λ r, ["--rmi"; RmiMode_string r])
  ++ spread_if (down_timeout o) (λ t, ["--timeout"; Number_toString t])
  ++ spread_if (down_volumes o) (λ v, ["--volumes"; v]).

(** ** Sessions, effects and promises *)

Inductive Outcome (E A : Type) :=
| Fulfilled (a : A)
| Rejected (e : E).
Arguments Fulfilled {E A} a.
Arguments Rejected {E A} e.

(** A promise as seen by [Promise.all]: how it settles, and when. Instant
    0 is the turn in which the promise was created; input/output completes
    in a later turn. *)
Record Promise (E A : Type) := {
  settles_at : nat;
  result : Outcome E A;
}.
Arguments settles_at {E A} p.
Arguments result {E A} p.

(** The rejection that settles first, the earlier element winning a tie. *)
Fixpoint first_rejection {E A} (ps : list (Promise E A)) : option (nat * E) :=
  match ps with
  | [] => None
  | p :: ps' =>
      match result p, first_rejection ps' with
      | Rejected e, Some (t', e') =>
          if decide (t' < settles_at p) then Some (t', e')
          else Some (settles_at p, e)
      | Rejected e, None => Some (settles_at p, e)
      | Fulfilled _, rest => rest
      end
  end.

Fixpoint fulfilled_values {E A} (ps : list (Promise E A)) : list A :=
  match ps with
  | [] => []
  | p :: ps' =>
      match result p with
      | Fulfilled a => a :: fulfilled_values ps'
      | Rejected _ => fulfilled_values ps'
      end
  end.

(** [Promise.all]: rejects with the first rejection; otherwise fulfils with
    the values in the order of the input, once the last one is there. *)
Definition Promise_all {E A} (ps : list (Promise E A)) : Promise E (list A) :=
  match first_rejection ps with
  | Some (t, e) => {| settles_at := t; result := Rejected e |}
  | None =>
      {| settles_at := foldr Nat.max 0 (settles_at <$> ps);
         result := Fulfilled (fulfilled_values ps) |}
  end.

Section Model.

(** [Compose] is the schema type of compose-spec-schema, [Error] what can
    be thrown, [ExecaReturnValue] what a finished child process resolves
    to and [Passthrough] the execa options objects callers pass, which the
    class does not look into. *)
Context {Compose Error ExecaReturnValue Passthrough : Type}.

Inductive ConfigElement :=
| Path (path : string)
| Inline (config : Compose).

(** [Compose | string | Array<Compose | string>] *)
Inductive FileOption :=
| OneFile (f : ConfigElement)
| FileArray (fs : list ConfigElement).

Record DockerComposeOptions := {
  file : FileOption;
  directory : option string;
  projectName : option string;
}.

Record DockerCompose := {
  _file : FileOption;
  _directory : string;
  _projectName : option string;
}.

(** [execa.Options] as a caller passes them. The class never reads an
    entry of this object: it spreads it, whole, over its own [stdio]
    entry. *)
Record execa_Options := {
  passthrough : Passthrough;
}.

(** The options object [command] builds,
    [{ stdio: spawn_stdio, ...spawn_passthrough }]: the entry the class
    computes, and the caller's options spread over it. What an own [stdio]
    entry of the caller (a mode, an array, [undefined]) does to the former
    is the spread's and execa's business, not the class's. *)
Record SpawnOptions := {
  spawn_stdio : string;
  spawn_passthrough : option Passthrough;
}.

(** The handle execa returns; [child_id] tells two spawns of the same
    command line apart. *)
Record ExecaChildProcess := {
  child_id : nat;
  child_file : string;
  child_args : list string;
  child_options : SpawnOptions;
}.

Record DockerComposeResult := {
  childProcess : ExecaChildProcess;
}.

(** What a call does to the outside world, in the order it does it. *)
Inductive Event :=
| EvWriteFile (path data : string)
| EvLog (file : string) (args : list string)
| EvExeca (child : ExecaChildProcess)
| EvAwait (child : ExecaChildProcess).

(** The collaborators the class imports. The file system and the child
    processes answer as they please, possibly depending on everything
    that happened before. *)
Class Platform := {
  (** [process.env.DOCKER_COMPOSE_STDIO], read once on load *)
  env_DOCKER_COMPOSE_STDIO : option string;
  (** [tempy.directory({ prefix })] *)
  tempy_directory : string → string;
  (** [path.join] *)
  path_join : string → string → string;
  (** [YAML.dump], which may throw *)
  YAML_dump : Compose → Outcome Error string;
  (** [fs.writeFile]: the later turn in which it completes (counted from
      1), and the error if it fails *)
  fs_writeFile : list Event → string → string → nat * option Error;
  (** how the promise of a child process settles *)
  child_completion :
    list Event → ExecaChildProcess → Outcome Error ExecaReturnValue;
}.

Context {platform : Platform}.

(** An awaited computation: given the events so far, how it settles and
    the events it adds. *)
Definition Async (A : Type) : Type :=
  list Event → Outcome Error A * list Event.

Definition Async_ret {A} (a : A) : Async A := λ _, (Fulfilled a, []).

(** Sequencing with [await]: a rejection is thrown past the rest. *)
Definition Async_bind {A B} (m : Async A) (k : A → Async B) : Async B :=
  λ history,
    match m history with
    | (Fulfilled a, events) =>
        let '(r, events') := k a (history ++ events) in
        (r, events ++ events')
    | (Rejected e, events) => (Rejected e, events)
    end.

Notation "x ←await m ; k" := (Async_bind m (λ x, k))
  (at level 100, m at next level, right associativity).

Definition DOCKER_COMPOSE_STDIO : string :=
  or_default env_DOCKER_COMPOSE_STDIO "inherit".

Definition isProcessStdio (x : string) : bool :=
  bool_decide (x = "inherit") || bool_decide (x = "pipe")
  || bool_decide (x = "ignore").

Definition new_DockerCompose (o : DockerComposeOptions) : DockerCompose :=
  {| _file := file o;
     _directory :=
       match directory o with
       | Some d => d
       | None => tempy_directory "docker-compose"
       end;
     _projectName := projectName o |}.

(** [_execa]: logs, then spawns. execa is taken to accept the options it
    is given: the validation it runs on them before spawning (it throws,
    for instance, on [stdio] given together with [stdin], [stdout] or
    [stderr], or on a malformed [timeout]) reads entries the class never
    looks at and is outside the model. *)
Definition _execa (file : string) (args : list string)
    (options : SpawnOptions) : list Event → ExecaChildProcess * list Event :=
  λ history,
    let child :=
      {| child_id := length history; child_file := file;
         child_args := args; child_options := options |} in
    (child, [EvLog file args; EvExeca child]).

(** [await childProcess] *)
Definition await_child (child : ExecaChildProcess) : Async ExecaReturnValue :=
  λ history, (child_completion history child, [EvAwait child]).

(** [_getFile]: everything up to the [await] runs when it is called. *)
Definition _getFile (self : DockerCompose) (file : ConfigElement)
    (index : nat) : list Event → Promise Error string * list Event :=
  λ history,
    match file with
    | Path path => ({| settles_at := 0; result := Fulfilled path |}, [])
    | Inline config =>
        let temporaryYamlFilePath :=
          path_join (_directory self)
            ("docker-compose." +:+ pretty index +:+ ".yml") in
        match YAML_dump config with
        | Rejected e => ({| settles_at := 0; result := Rejected e |}, [])
        | Fulfilled yamlString =>
            let '(turn, failure) :=
              fs_writeFile history temporaryYamlFilePath yamlString in
            ({| settles_at := S turn;
                result :=
                  match failure with
                  | Some e => Rejected e
                  | None => Fulfilled temporaryYamlFilePath
                  end |},
             [EvWriteFile temporaryYamlFilePath yamlString])
        end
    end.

(** [files.map(async (file, index) => this._getFile(file, index))],
    from position [index] on. *)
Fixpoint map_getFile (self : DockerCompose) (files : list ConfigElement)
    (index : nat) (history : list Event)
    : list (Promise Error string) * list Event :=
  match files with
  | [] => ([], [])
  | file :: files' =>
      let '(p, events) := _getFile self file index history in
      let '(ps, events') :=
        map_getFile self files' (S index) (history ++ events) in
      (p :: ps, events ++ events')
  end.

(** [Array.isArray(this._file) ? this._file : [ this._file ]] *)
Definition normalized_files (self : DockerCompose) : list ConfigElement :=
  match _file self with
  | FileArray fs => fs
  | OneFile f => [f]
  end.

Definition _getFiles (self : DockerCompose)
    : list Event → Promise Error (list string) * list Event :=
  λ history,
    let files := normalized_files self in
    let '(ps, events) := map_getFile self files 0 history in
    (Promise_all ps, events).

Definition _getFilesArguments (self : DockerCompose) : Async (list string) :=
  λ history,
    let '(p, events) := _getFiles self history in
    match result p with
    | Fulfilled files => (Fulfilled (files ≫= (λ file, ["--file"; file])), events)
    | Rejected e => (Rejected e, events)
    end.

Definition _getGlobalArguments (self : DockerCompose) : Async (list string) :=
  filesArguments ←await _getFilesArguments self;
  Async_ret
    (spread_if (_projectName self) (λ name, ["--project-name"; name])
     ++ filesArguments).

(** [{ stdio: ..., ...options }] *)
Definition spawn_options (options : option execa_Options) : SpawnOptions :=
  let stdio_default :=
    if isProcessStdio DOCKER_COMPOSE_STDIO then DOCKER_COMPOSE_STDIO
    else "inherit" in
  match options with
  | None => {| spawn_stdio := stdio_default; spawn_passthrough := None |}
  | Some o =>
      {| spawn_stdio := stdio_default;
         spawn_passthrough := Some (passthrough o) |}
  end.

Definition command (self : DockerCompose) (args : list string)
    (options : option execa_Options) : Async DockerComposeResult :=
  globalArguments ←await _getGlobalArguments self;
  λ history,
    let '(child, events) :=
      _execa "docker-compose" (globalArguments ++ args)
        (spawn_options options) history in
    (Fulfilled {| childProcess := child |}, events).

Definition up (self : DockerCompose) (options : option UpOptions)
    (execaOptions : option execa_Options) : Async DockerComposeResult :=
  let o := or_default options UpOptions_empty in
  let detach := or_default (up_detach o) true in
  r ←await command self (up_arguments o) execaOptions;
  if truthy detach
  then (_ ←await await_child (childProcess r); Async_ret r)
  else Async_ret r.

Definition run (self : DockerCompose) (service : string)
    (command_ : option string) (args : list string)
    (options : option RunOptions) (execaOptions : option execa_Options)
    : Async unit :=
  let o := or_default options RunOptions_empty in
  r ←await command self (run_arguments service command_ args o) execaOptions;
  _ ←await await_child (childProcess r);
  Async_ret tt.

Definition rm (self : DockerCompose) (options : option RmOptions)
    (execaOptions : option execa_Options) : Async unit :=
  let o := or_default options RmOptions_empty in
  r ←await command self (rm_arguments o) execaOptions;
  _ ←await await_child (childProcess r);
  Async_ret tt.

Definition down (self : DockerCompose) (options : option DownOptions)
    (options_ : option execa_Options) : Async unit :=
  let o := or_default options DownOptions_empty in
  r ←await command self (down_arguments o) options_;
  _ ←await await_child (childProcess r);
  Async_ret tt.

(** *** The public call surface *)

Inductive Call :=
| CallCommand (args : list string) (options : option execa_Options)
| CallUp (options : option UpOptions) (execaOptions : option execa_Options)
| CallRun (service : string) (command_ : option string) (args : list string)
    (options : option RunOptions) (execaOptions : option execa_Options)
| CallRm (options : option RmOptions) (execaOptions : option execa_Options)
| CallDown (options : option DownOptions) (options_ : option execa_Options).

(** What the promise of a method resolves to: a [DockerComposeResult], or
    [undefined] for the methods declared [Promise<void>]. *)
Inductive Returned :=
| ReturnedResult (r : DockerComposeResult)
| ReturnedUndefined.

Definition invoke (self : DockerCompose) (c : Call) : Async Returned :=
  match c with
  | CallCommand args options =>
      r ←await command self args options; Async_ret (ReturnedResult r)
  | CallUp options execaOptions =>
      r ←await up self options execaOptions; Async_ret (ReturnedResult r)
  | CallRun service command_ args options execaOptions =>
      _ ←await run self service command_ args options execaOptions;
      Async_ret ReturnedUndefined
  | CallRm options execaOptions =>
      _ ←await rm self options execaOptions; Async_ret ReturnedUndefined
  | CallDown options options_ =>
      _ ←await down self options options_; Async_ret ReturnedUndefined
  end.

(** The argument array a call hands to [command]. *)
Definition call_arguments (c : Call) : list string :=
  match c with
  | CallCommand args _ => args
  | CallUp options _ => up_arguments (or_default options UpOptions_empty)
  | CallRun service command_ args options _ =>
      run_arguments service command_ args (or_default options RunOptions_empty)
  | CallRm options _ => rm_arguments (or_default options RmOptions_empty)
  | CallDown options _ => down_arguments (or_default options DownOptions_empty)
  end.

(** *** Vocabulary for the statements below *)

(** The path [_getFile] resolves the element at position [index] to. *)
Definition resolved_path (self : DockerCompose) (index : nat) (f : ConfigElement) : string :=
  match f with
  | Path path => path
  | Inline _ =>
      path_join (_directory self) ("docker-compose." +:+ pretty index +:+ ".yml")
  end.

(** The element at position [index] fails to materialize with [e]: its
    serialization throws [e], or the write of its text is rejected with [e]. *)
Definition fails_to_materialize (self : DockerCompose) (index : nat) (f : ConfigElement)
    (e : Error) : Prop :=
  ∃ config, f = Inline config ∧
    (YAML_dump config = Rejected e ∨
     ∃ history yamlString,
       YAML_dump config = Fulfilled yamlString ∧
       (fs_writeFile history (resolved_path self index f) yamlString).2 = Some e).

Definition is_write (ev : Event) : Prop :=
  match ev with EvWriteFile _ _ => True | _ => False end.

(** [this._projectName ? [ '--project-name', this._projectName ] : []] *)
Definition project_name_arguments (self : DockerCompose) : list string :=
  spread_if (_projectName self) (λ name, ["--project-name"; name]).

(** The child process [command] spawns once the global arguments [g] are
    there. *)
Definition spawned (history : list Event) (g args : list string)
    (options : option execa_Options) : ExecaChildProcess :=
  {| child_id := length history; child_file := "docker-compose";
     child_args := g ++ args; child_options := spawn_options options |}.

(** The execa options a call passes on. *)
Definition call_options (c : Call) : option execa_Options :=
  match c with
  | CallCommand _ options => options
  | CallUp _ execaOptions => execaOptions
  | CallRun _ _ _ _ execaOptions => execaOptions
  | CallRm _ execaOptions => execaOptions
  | CallDown _ options_ => options_
  end.

(** Whether the method reaches an [await childProcess]. *)
Definition call_awaits (c : Call) : bool :=
  match c with
  | CallCommand _ _ => false
  | CallUp options _ =>
      truthy (or_default (up_detach (or_default options UpOptions_empty)) true)
  | CallRun _ _ _ _ _ | CallRm _ _ | CallDown _ _ => true
  end.

(** What the method returns once it got past its last [await]. *)
Definition call_returns (c : Call) (child : ExecaChildProcess) : Returned :=
  match c with
  | CallCommand _ _ | CallUp _ _ =>
      ReturnedResult {| childProcess := child |}
  | CallRun _ _ _ _ _ | CallRm _ _ | CallDown _ _ => ReturnedUndefined
  end.

End Model.

Arguments ConfigElement : clear implicits.
Arguments FileOption : clear implicits.
Arguments DockerComposeOptions : clear implicits.
Arguments DockerCompose : clear implicits.
Arguments execa_Options : clear implicits.
Arguments SpawnOptions : clear implicits.
Arguments ExecaChildProcess : clear implicits.
Arguments DockerComposeResult : clear implicits.
Arguments Event : clear implicits.
Arguments Platform : clear implicits.
Arguments Call : clear implicits.
Arguments Returned : clear implicits.

(** ** The class as src/index.ts has it

    A reduced surface over the same private helpers: [up] takes [detach]
    and [scale] only and gives [detach] no default, [down] takes no
    options, and the three methods resolve to [undefined]. *)

Module SrcIndex.
Section SrcIndex.

Context {Compose Error ExecaReturnValue Passthrough : Type}.
Context {platform : Platform Compose Error ExecaReturnValue Passthrough}.

Abbreviation DockerCompose := (DockerCompose Compose).
Abbreviation execa_Options := (execa_Options Passthrough).

Record UpOptions := {
  up_detach : option bool;
  up_scale : option (object number);
}.

Definition UpOptions_empty : UpOptions :=
  {| up_detach := None; up_scale := None |}.

Definition _getScaleArguments (scale : object number) : list string :=
  let entries := Object_entries scale in
  entries ≫= (λ entry, ["--scale"; entry_join "=" (prod_map id VNum entry)]).

Definition _dockerCompose (self : DockerCompose) (args : list string)
    (options : option execa_Options) :=
  command self args options.

Definition up_arguments (o : UpOptions) : list string :=
  let scale := or_default (up_scale o) [] in
  ["up"]
  ++ _getScaleArguments scale
  ++ spread_if (up_detach o) (λ _, ["--detach"]).

Definition up (self : DockerCompose) (options : option UpOptions)
    : Async unit :=
  let o := or_default options UpOptions_empty in
  Async_bind (_dockerCompose self (up_arguments o) None) (λ r,
    if truthy (up_detach o)
    then Async_bind (await_child (childProcess r)) (λ _, Async_ret tt)
    else Async_ret tt).

Definition rm (self : DockerCompose) (options : option RmOptions)
    : Async unit :=
  let o := or_default options RmOptions_empty in
  Async_bind (_dockerCompose self (rm_arguments o) None) (λ r,
    Async_bind (await_child (childProcess r)) (λ _, Async_ret tt)).

Definition down (self : DockerCompose) : Async unit :=
  Async_bind (_dockerCompose self ["down"] None) (λ r,
    Async_bind (await_child (childProcess r)) (λ _, Async_ret tt)).

End SrcIndex.
End SrcIndex.

(** ** A small platform to run the class on *)

Module Sample.

(** Configurations are their own YAML text, except the empty one, which
    the serializer refuses. Writes below [/readonly] are denied. A child
    process given the argument [fail] exits with an error. *)
Definition sample_dump (config : string) : Outcome string string :=
  if truthy config then Fulfilled config else Rejected "YAMLException".

Definition sample_join (directory name : string) : string :=
  directory +:+ "/" +:+ name.

Definition sample_write (history : list (Event unit)) (path data : string)
    : nat * option string :=
  (length history,
   if String.prefix "/readonly" path then Some "EACCES" else None).

Definition sample_completion (history : list (Event unit))
    (child : ExecaChildProcess unit) : Outcome string nat :=
  if bool_decide ("fail" ∈ child_args child)
  then Rejected "Command failed with exit code 1"
  else Fulfilled 0.

#[global] Instance platform : Platform string string nat unit :=
  {| env_DOCKER_COMPOSE_STDIO := Some "pipe";
     tempy_directory := λ prefix, "/tmp/" +:+ prefix;
     path_join := sample_join;
     YAML_dump := sample_dump;
     fs_writeFile := sample_write;
     child_completion := sample_completion |}.

Definition session (files : list (ConfigElement string))
    (directory : option string) (projectName : option string)
    : DockerCompose string :=
  new_DockerCompose
    {| file := FileArray files; directory := directory;
       projectName := projectName |}.

Definition overlay : DockerCompose string :=
  session [Inline "services: {}"; Path "override.yml"; Inline "version: '3.9'"]
    (Some "/work") (Some "demo").

Definition broken : DockerCompose string :=
  session [Inline "services: {}"; Inline EmptyString; Path "override.yml"]
    (Some "/readonly") None.

Definition unnamed : DockerCompose string :=
  session [Path "a.yml"] None (Some EmptyString).

End Sample.

(** What the resolver does for [Sample.overlay], and the options of an
    attached [up]. *)
Definition overlay_global_arguments : list string :=
  ["--project-name"; "demo";
   "--file"; "/work/docker-compose.0.yml";
   "--file"; "override.yml";
   "--file"; "/work/docker-compose.2.yml"].

Definition overlay_writes : list (Event unit) :=
  [EvWriteFile "/work/docker-compose.0.yml" "services: {}";
   EvWriteFile "/work/docker-compose.2.yml" "version: '3.9'"].

Definition attached : UpOptions :=
  {| up_abortOnContainerExit := None; up_alwaysRecreateDeps := None;
     up_attach := None; up_attachDependencies := None; up_build := None;
     up_detach := Some false; up_exitCodeFrom := None;
     up_forceRecreate := None; up_noAttach := None; up_noBuild := None;
     up_noDeps := None; up_noLogPrefix := None; up_noRecreate := None;
     up_noStart := None; up_pull := None; up_quietPull := None;
     up_removeOrphans := None; up_renewAnonVolumes := None;
     up_scale := None; up_timeout := None; up_timestamps := None;
     up_wait := None |}.

(** ** Vocabulary for the order of record entries *)

Definition keyed_by_index {V} (kv : string * V) : Prop :=
  is_Some (array_index kv.1).

#[global] Instance keyed_by_index_dec {V} (kv : string * V) :
  Decision (keyed_by_index kv).
Proof. unfold keyed_by_index. apply _. Defined.

(** The order among entries whose keys are array indices. *)
Definition index_order {V} (a b : string * V) : Prop :=
  ∀ i j, array_index a.1 = Some i → array_index b.1 = Some j → (i ≤ j)%N.


(** ** The bare flags of [up]

    Each boolean option of [up] other than [detach], with the flag its
    line in the argument array emits. *)
Definition up_boolean_flags : list (string * (UpOptions → option bool)) :=
  [("--abort-on-container-exit", up_abortOnContainerExit);
   ("--always-recreate-deps", up_alwaysRecreateDeps);
   ("--attach-dependencies", up_attachDependencies);
   ("--build", up_build);
   ("--force-recreate", up_forceRecreate);
   ("--no-build", up_noBuild);
   ("--no-deps", up_noDeps);
   ("--no-log-prefix", up_noLogPrefix);
   ("--no-recreate", up_noRecreate);
   ("--no-start", up_noStart);
   ("--quiet-pull", up_quietPull);
   ("--remove-orphans", up_removeOrphans);
   ("--renew-anon-volumes", up_renewAnonVolumes);
   ("--timestamps", up_timestamps);
   ("--wait", up_wait)].

(** Options [up] documents as incompatible, set together. *)
Definition conflicting : UpOptions :=
  {| up_abortOnContainerExit := Some true; up_alwaysRecreateDeps := Some true;
     up_attach := None; up_attachDependencies := None; up_build := None;
     up_detach := None; up_exitCodeFrom := None;
     up_forceRecreate := Some true; up_noAttach := None; up_noBuild := None;
     up_noDeps := None; up_noLogPrefix := None; up_noRecreate := Some true;
     up_noStart := None; up_pull := None; up_quietPull := None;
     up_removeOrphans := None; up_renewAnonVolumes := None;
     up_scale := None; up_timeout := None; up_timestamps := None;
     up_wait := None |}.

(** ** Vocabulary for file names *)

(** A character of the portable filename character set: a digit, a
    letter, a hyphen, a period or an underscore. *)
Definition portable_char (c : Ascii.ascii) : bool :=
  let n := Ascii.N_of_ascii c in
  ((48 <=? n) && (n <=? 57) || (65 <=? n) && (n <=? 90)
   || (97 <=? n) && (n <=? 122) || (n =? 45) || (n =? 46) || (n =? 95))%N.

(** A plain file name: not empty, not [.] or [..], and made of portable
    characters only, so without any path separator. Joined to one
    directory, two different plain names give two different paths, with
    node's [path.join] as with any other. *)
Definition portable_name (name : string) : Prop :=
  forallb portable_char (String.list_ascii_of_string name) = true ∧
  name ≠ EmptyString ∧ name ≠ "." ∧ name ≠ "..".

(** * Properties *)

(** ** Promises *)

Section PromiseFacts.

Context {E A : Type}.
Implicit Types ps : list (Promise E A).

Lemma first_rejection_None ps :
  first_rejection ps = None ↔ Forall (λ p, ∃ a, result p = Fulfilled a) ps.
Proof.
  induction ps as [|p ps IH]; simpl.
  - split; [constructor | done].
  - rewrite Forall_cons, <- IH.
    destruct (result p) as [a|e] eqn:Hp.
    + split; [eauto | by intros [_ ?]].
    + split.
      * destruct (first_rejection ps) as [[t' e']|]; [case_decide|]; done.
      * intros [[a Ha] _]. done.
Qed.

Lemma first_rejection_Some ps t e :
  first_rejection ps = Some (t, e) →
  ∃ p, p ∈ ps ∧ result p = Rejected e ∧ settles_at p = t.
Proof.
  revert t e. induction ps as [|p ps IH]; intros t e; simpl; [done|].
  destruct (result p) as [a|e0] eqn:Hp.
  - intros (q & ? & ?)%IH. exists q. split; [by right | done].
  - destruct (first_rejection ps) as [[t' e']|] eqn:Hrest.
    + case_decide; intros [= <- <-].
      * destruct (IH _ _ eq_refl) as (q & ? & ?).
        exists q. split; [by right | done].
      * exists p. split; [by left | done].
    + intros [= <- <-]. exists p. split; [by left | done].
Qed.

Lemma first_rejection_elem_of ps p e :
  p ∈ ps → result p = Rejected e → is_Some (first_rejection ps).
Proof.
  intros Hin Hp.
  destruct (first_rejection ps) as [x|] eqn:Hnone; [by eexists|].
  apply first_rejection_None in Hnone.
  rewrite Forall_forall in Hnone.
  destruct (Hnone p Hin) as [a Ha]. congruence.
Qed.

Lemma fulfilled_values_lookup ps :
  first_rejection ps = None →
  length (fulfilled_values ps) = length ps ∧
  ∀ i p, ps !! i = Some p →
    ∃ a, result p = Fulfilled a ∧ fulfilled_values ps !! i = Some a.
Proof.
  rewrite first_rejection_None.
  induction 1 as [|p ps [a Ha] _ [IHlen IH]]; simpl.
  - split; [done|]. intros i p. by rewrite lookup_nil.
  - rewrite Ha. simpl. split; [by rewrite IHlen|].
    intros [|i] q; simpl.
    + intros [= <-]. eauto.
    + apply IH.
Qed.

(** How [Promise.all] settles. *)
Lemma Promise_all_result ps :
  match result (Promise_all ps) with
  | Fulfilled values =>
      length values = length ps ∧
      ∀ i p, ps !! i = Some p →
        ∃ a, result p = Fulfilled a ∧ values !! i = Some a
  | Rejected e => ∃ p, p ∈ ps ∧ result p = Rejected e
  end.
Proof.
  unfold Promise_all.
  destruct (first_rejection ps) as [[t e]|] eqn:Hfirst; simpl.
  - destruct (first_rejection_Some _ _ _ Hfirst) as (p & ? & ? & _). eauto.
  - by apply fulfilled_values_lookup.
Qed.

Lemma Promise_all_rejects ps p e :
  p ∈ ps → result p = Rejected e →
  ∃ e', result (Promise_all ps) = Rejected e'.
Proof.
  intros Hin Hp. unfold Promise_all.
  destruct (first_rejection_elem_of _ _ _ Hin Hp) as [[t e'] ->].
  simpl. eauto.
Qed.

End PromiseFacts.

(** ** Flag pairs *)

Lemma file_pairs_length (files : list string) :
  length (files ≫= (λ file, ["--file"; file])) = 2 * length files.
Proof. induction files as [|f files IH]; csimpl; [done | lia]. Qed.

Lemma file_pairs_lookup (files : list string) i f :
  files !! i = Some f →
  (files ≫= (λ file, ["--file"; file])) !! (2 * i) = Some "--file" ∧
  (files ≫= (λ file, ["--file"; file])) !! (2 * i + 1) = Some f.
Proof.
  revert i. induction files as [|f0 files IH]; intros i; [by rewrite lookup_nil|].
  destruct i as [|i]; intros Hi.
  - injection Hi as ->. by csimpl.
  - destruct (IH _ Hi) as [H1 H2].
    replace (2 * S i) with (S (S (2 * i))) by lia.
    rewrite bind_cons. split; assumption.
Qed.

(** ** The resolver and the invoker *)

Section Properties.

Context {Compose Error ExecaReturnValue Passthrough : Type}.
Context {platform : Platform Compose Error ExecaReturnValue Passthrough}.

Abbreviation Session := (DockerCompose Compose).
Abbreviation Child := (ExecaChildProcess Passthrough).
Abbreviation Trace := (list (Event Passthrough)).

Implicit Types (self : Session) (history events : Trace) (child : Child).

Lemma _getFile_result self f index history :
  match result (_getFile self f index history).1 with
  | Fulfilled path => path = resolved_path self index f
  | Rejected e => fails_to_materialize self index f e
  end.
Proof.
  destruct f as [path|config]; simpl; [done|].
  destruct (YAML_dump config) as [yamlString|e] eqn:Hdump; simpl.
  - destruct (fs_writeFile _ _ _) as [turn [e|]] eqn:Hwrite; simpl; [|done].
    exists config. split; [done|]. right.
    exists history, yamlString. simpl. by rewrite Hwrite.
  - exists config. eauto.
Qed.

Lemma _getFile_events self f index history :
  Forall is_write (_getFile self f index history).2.
Proof.
  destruct f as [path|config]; simpl; [constructor|].
  destruct (YAML_dump config); simpl; [|constructor].
  destruct (fs_writeFile _ _ _). simpl. by repeat constructor.
Qed.

(** Every promise [_getFiles] collects is that of [_getFile] on the
    element at the same position, called with that position. *)
Lemma map_getFile_lookup self files start history :
  length (map_getFile self files start history).1 = length files ∧
  ∀ i f, files !! i = Some f →
    ∃ history',
      (map_getFile self files start history).1 !! i
      = Some (_getFile self f (start + i) history').1.
Proof.
  revert start history.
  induction files as [|f0 files IH]; intros start history; simpl.
  - split; [done|]. intros i f. by rewrite lookup_nil.
  - destruct (_getFile self f0 start history) as [p events] eqn:Hp.
    specialize (IH (S start) (history ++ events)).
    destruct (map_getFile self files (S start) (history ++ events))
      as [ps events'] eqn:Hps.
    simpl in *. destruct IH as [IHlen IH]. split; [by rewrite IHlen|].
    intros [|i] f; simpl.
    + intros [= <-]. exists history. by rewrite Nat.add_0_r, Hp.
    + intros Hi. destruct (IH _ _ Hi) as [history' ->].
      exists history'. by rewrite Nat.add_succ_r.
Qed.

Lemma map_getFile_events self files start history :
  Forall is_write (map_getFile self files start history).2.
Proof.
  revert start history.
  induction files as [|f0 files IH]; intros start history; simpl; [constructor|].
  pose proof (_getFile_events self f0 start history) as Hw.
  destruct (_getFile self f0 start history) as [p events].
  specialize (IH (S start) (history ++ events)).
  destruct (map_getFile self files (S start) (history ++ events)) as [ps events'].
  simpl in *. by apply Forall_app.
Qed.

Lemma _getFilesArguments_unfold self history :
  _getFilesArguments self history =
  let ps := (map_getFile self (normalized_files self) 0 history).1 in
  let events := (map_getFile self (normalized_files self) 0 history).2 in
  match result (Promise_all ps) with
  | Fulfilled files => (Fulfilled (files ≫= (λ file, ["--file"; file])), events)
  | Rejected e => (Rejected e, events)
  end.
Proof.
  unfold _getFilesArguments, _getFiles.
  by destruct (map_getFile self (normalized_files self) 0 history).
Qed.

Lemma _getFilesArguments_events self history :
  Forall is_write (_getFilesArguments self history).2.
Proof.
  rewrite _getFilesArguments_unfold. simpl.
  pose proof (map_getFile_events self (normalized_files self) 0 history).
  by destruct (result (Promise_all _)).
Qed.

Lemma _getGlobalArguments_unfold self history :
  _getGlobalArguments self history =
  match _getFilesArguments self history with
  | (Fulfilled filesArguments, events) =>
      (Fulfilled (project_name_arguments self ++ filesArguments), events)
  | (Rejected e, events) => (Rejected e, events)
  end.
Proof.
  unfold _getGlobalArguments, Async_bind, Async_ret.
  destruct (_getFilesArguments self history) as [[fa|e] events]; [|done].
  by rewrite app_nil_r.
Qed.

Lemma command_unfold self args options history :
  command self args options history =
  match _getGlobalArguments self history with
  | (Fulfilled g, events) =>
      let child := spawned (history ++ events) g args options in
      (Fulfilled {| childProcess := child |},
       events ++ [EvLog "docker-compose" (g ++ args); EvExeca child])
  | (Rejected e, events) => (Rejected e, events)
  end.
Proof.
  unfold command, Async_bind.
  by destruct (_getGlobalArguments self history) as [[g|e] events].
Qed.

Lemma _getGlobalArguments_events self history :
  Forall is_write (_getGlobalArguments self history).2.
Proof.
  rewrite _getGlobalArguments_unfold.
  pose proof (_getFilesArguments_events self history).
  by destruct (_getFilesArguments self history) as [[fa|e] events].
Qed.

(** [command] followed by [await childProcess], as [run], [rm], [down] and
    a detached [up] do. *)
Lemma command_await_unfold {B} self args options history
    (f : DockerComposeResult Passthrough → B) :
  Async_bind (command self args options)
    (λ r, Async_bind (await_child (childProcess r)) (λ _, Async_ret (f r)))
    history =
  match _getGlobalArguments self history with
  | (Fulfilled g, events) =>
      let child := spawned (history ++ events) g args options in
      let spawn := [EvLog "docker-compose" (g ++ args); EvExeca child] in
      (match child_completion (history ++ events ++ spawn) child with
       | Fulfilled _ => Fulfilled (f {| childProcess := child |})
       | Rejected e => Rejected e
       end,
       events ++ spawn ++ [EvAwait child])
  | (Rejected e, events) => (Rejected e, events)
  end.
Proof.
  unfold Async_bind at 1. rewrite command_unfold.
  destruct (_getGlobalArguments self history) as [[g|e] events]; [|done].
  cbv zeta. unfold Async_bind, await_child, Async_ret.
  destruct (child_completion _ _) as [v|e]; simpl.
  - by rewrite <- !app_assoc.
  - by rewrite <- !app_assoc.
Qed.

(** [command] followed by a plain [return]. *)
Lemma command_return_unfold {B} self args options history
    (f : DockerComposeResult Passthrough → B) :
  Async_bind (command self args options) (λ r, Async_ret (f r)) history =
  match _getGlobalArguments self history with
  | (Fulfilled g, events) =>
      let child := spawned (history ++ events) g args options in
      (Fulfilled (f {| childProcess := child |}),
       events ++ [EvLog "docker-compose" (g ++ args); EvExeca child])
  | (Rejected e, events) => (Rejected e, events)
  end.
Proof.
  unfold Async_bind. rewrite command_unfold.
  destruct (_getGlobalArguments self history) as [[g|e] events]; [|done].
  cbv zeta. unfold Async_ret. by rewrite app_nil_r.
Qed.

Lemma up_unfold self options execaOptions history :
  up self options execaOptions history =
  let o := or_default options UpOptions_empty in
  match _getGlobalArguments self history with
  | (Fulfilled g, events) =>
      let child := spawned (history ++ events) g (up_arguments o) execaOptions in
      let spawn :=
        [EvLog "docker-compose" (g ++ up_arguments o); EvExeca child] in
      if or_default (up_detach o) true
      then (match child_completion (history ++ events ++ spawn) child with
            | Fulfilled _ => Fulfilled {| childProcess := child |}
            | Rejected e => Rejected e
            end,
            events ++ spawn ++ [EvAwait child])
      else (Fulfilled {| childProcess := child |}, events ++ spawn)
  | (Rejected e, events) => (Rejected e, events)
  end.
Proof.
  unfold up. cbv zeta.
  destruct (or_default (up_detach _) true) eqn:Hdetach; simpl.
  - rewrite (command_await_unfold self _ _ _ (λ r, r)).
    by destruct (_getGlobalArguments self history) as [[g|e] events].
  - rewrite (command_return_unfold self _ _ _ (λ r, r)).
    by destruct (_getGlobalArguments self history) as [[g|e] events].
Qed.

(** One shape for the whole call surface. *)
Lemma invoke_unfold self call history :
  invoke self call history =
  match _getGlobalArguments self history with
  | (Fulfilled g, events) =>
      let child :=
        spawned (history ++ events) g (call_arguments call) (call_options call) in
      let spawn :=
        [EvLog "docker-compose" (g ++ call_arguments call); EvExeca child] in
      if call_awaits call
      then (match child_completion (history ++ events ++ spawn) child with
            | Fulfilled _ => Fulfilled (call_returns call child)
            | Rejected e => Rejected e
            end,
            events ++ spawn ++ [EvAwait child])
      else (Fulfilled (call_returns call child), events ++ spawn)
  | (Rejected e, events) => (Rejected e, events)
  end.
Proof.
  destruct call as [args options|options execaOptions
    |service command_ args options execaOptions|options execaOptions
    |options options_]; simpl.
  - rewrite command_return_unfold.
    by destruct (_getGlobalArguments self history) as [[g|e] events].
  - unfold Async_bind at 1. rewrite up_unfold. cbv zeta.
    destruct (_getGlobalArguments self history) as [[g|e] events]; [|done].
    unfold truthy, truthy_bool.
    destruct (or_default (up_detach _) true); simpl.
    + destruct (child_completion _ _); simpl; [|done].
      by rewrite app_nil_r.
    + by rewrite app_nil_r.
  - unfold Async_bind at 1, run.
    rewrite (command_await_unfold self _ _ _ (λ _, tt)).
    destruct (_getGlobalArguments self history) as [[g|e] events]; [|done].
    cbv zeta. destruct (child_completion _ _); simpl; [|done].
    by rewrite app_nil_r.
  - unfold Async_bind at 1, rm.
    rewrite (command_await_unfold self _ _ _ (λ _, tt)).
    destruct (_getGlobalArguments self history) as [[g|e] events]; [|done].
    cbv zeta. destruct (child_completion _ _); simpl; [|done].
    by rewrite app_nil_r.
  - unfold Async_bind at 1, down.
    rewrite (command_await_unfold self _ _ _ (λ _, tt)).
    destruct (_getGlobalArguments self history) as [[g|e] events]; [|done].
    cbv zeta. destruct (child_completion _ _); simpl; [|done].
    by rewrite app_nil_r.
Qed.

(** ** The configuration resolver *)

(** A rejected promise among those [_getFiles] collects is the failure of
    an element to materialize. *)
Lemma map_getFile_rejection self history p e :
  p ∈ (map_getFile self (normalized_files self) 0 history).1 →
  result p = Rejected e →
  ∃ i f, normalized_files self !! i = Some f ∧ fails_to_materialize self i f e.
Proof.
  intros Hin Hp.
  destruct (map_getFile_lookup self (normalized_files self) 0 history)
    as [Hlen Hlookup].
  apply list_elem_of_lookup in Hin as [i Hi].
  assert (i < length (normalized_files self)) as Hlt.
  { rewrite <- Hlen. by eapply lookup_lt_Some. }
  destruct (lookup_lt_is_Some_2 _ i Hlt) as [f Hf].
  destruct (Hlookup i f Hf) as [history' Hp'].
  rewrite Hi in Hp'. injection Hp' as ->.
  pose proof (_getFile_result self f i history') as Hres.
  change (0 + i) with i in Hp. rewrite Hp in Hres. eauto.
Qed.

(** C1. For a configuration source that normalizes to a list of N
    elements, [_getFilesArguments] returns exactly N pairs [--file],
    [<path>] in the order of the list: the pair of the element at 0-based
    position [i] sits at positions [2i] and [2i+1], its path being the
    string itself for a string element and
    [<directory>/docker-compose.<i>.yml] (the [path.join] of the working
    directory and that name) for a structured one. The only other way for
    the call to settle is to reject with the error of an element that
    failed to materialize. *)
Theorem getFilesArguments_file_pairs self history :
  let files := normalized_files self in
  match (_getFilesArguments self history).1 with
  | Fulfilled arguments =>
      length arguments = 2 * length files ∧
      ∀ i f, files !! i = Some f →
        arguments !! (2 * i) = Some "--file" ∧
        arguments !! (2 * i + 1) =
          Some match f with
               | Path path => path
               | Inline _ =>
                   path_join (_directory self)
                     ("docker-compose." +:+ pretty i +:+ ".yml")
               end
  | Rejected e =>
      ∃ i f, files !! i = Some f ∧ fails_to_materialize self i f e
  end.
Proof.
  intros files. rewrite _getFilesArguments_unfold. fold files. cbv zeta.
  destruct (map_getFile_lookup self files 0 history) as [Hlen Hlookup].
  pose proof (Promise_all_result (map_getFile self files 0 history).1) as Hall.
  destruct (result (Promise_all _)) as [paths|e]; simpl.
  - destruct Hall as [Hpaths Hvalues]. split.
    + rewrite file_pairs_length, Hpaths, Hlen. done.
    + intros i f Hf.
      destruct (Hlookup i f Hf) as [history' Hp].
      destruct (Hvalues _ _ Hp) as (path & Hpath & Hi).
      pose proof (_getFile_result self f (0 + i) history') as Hres.
      rewrite Hpath in Hres. simpl in Hres. subst path.
      destruct (file_pairs_lookup _ _ _ Hi) as [H1 H2].
      split; [exact H1|]. etrans; [exact H2|]. by destruct f.
  - destruct Hall as (p & Hin & Hp). by eapply map_getFile_rejection.
Qed.

(** ** [up] *)

Lemma trace_no_await events child0 (tail : Trace) :
  Forall is_write events →
  (∀ ev, ev ∈ tail → ∀ c, ev ≠ EvAwait c) →
  EvAwait child0 ∉ events ++ tail.
Proof.
  intros Hw Htail [Hin|Hin]%elem_of_app.
  - rewrite Forall_forall in Hw. by apply Hw in Hin.
  - by eapply Htail.
Qed.

Lemma spawn_no_await file args child (ev : Event Passthrough) :
  ev ∈ [EvLog file args; EvExeca child] → ∀ c, ev ≠ EvAwait c.
Proof.
  intros Hin c ->. apply elem_of_cons in Hin as [?|Hin]; [done|].
  apply elem_of_cons in Hin as [?|Hin]; [done|]. by apply elem_of_nil in Hin.
Qed.

(** On the full class, with no options, [up] hands [command] exactly
    [up], [--detach]: once the global arguments [g] are resolved, the
    process is spawned with [g] followed by these two tokens, and the call
    awaits that process before it settles (with the handle if the process
    completes, with its error otherwise). [up()] behaves as [up({})]. *)
Theorem up_defaults self execaOptions history g events :
  _getGlobalArguments self history = (Fulfilled g, events) →
  up_arguments UpOptions_empty = ["up"; "--detach"] ∧
  (let child := spawned (history ++ events) g ["up"; "--detach"] execaOptions in
   let spawn :=
     [EvLog "docker-compose" (g ++ ["up"; "--detach"]); EvExeca child] in
   child_args child = g ++ ["up"; "--detach"] ∧
   up self (Some UpOptions_empty) execaOptions history =
     (match child_completion (history ++ events ++ spawn) child with
      | Fulfilled _ => Fulfilled {| childProcess := child |}
      | Rejected e => Rejected e
      end,
      events ++ spawn ++ [EvAwait child])) ∧
  up self None execaOptions history =
    up self (Some UpOptions_empty) execaOptions history.
Proof.
  intros Hg. split; [reflexivity|]. split; [|reflexivity].
  cbv zeta. split; [reflexivity|].
  rewrite up_unfold, Hg. reflexivity.
Qed.

(** C3. Once [command] has spawned the process, [up] awaits it before
    returning exactly when [detach] (default [true]) is true. With
    [detach: false] the call fulfils with the handle of the spawned
    process without any await, and that handle can be awaited afterwards,
    settling as the process completes. *)
Theorem up_awaits_iff_detach self options execaOptions history g events :
  _getGlobalArguments self history = (Fulfilled g, events) →
  let o := or_default options UpOptions_empty in
  let child := spawned (history ++ events) g (up_arguments o) execaOptions in
  let outcome := (up self options execaOptions history).1 in
  let events_up := (up self options execaOptions history).2 in
  EvExeca child ∈ events_up ∧
  (EvAwait child ∈ events_up ↔ or_default (up_detach o) true = true) ∧
  (up_detach o = Some false →
   outcome = Fulfilled {| childProcess := child |} ∧
   (∀ c, EvAwait c ∉ events_up) ∧
   ∀ later,
     await_child child later = (child_completion later child, [EvAwait child])).
Proof.
  intros Hg o child outcome events_up. subst outcome events_up.
  rewrite up_unfold, Hg. cbv zeta. fold o. fold child.
  pose proof (_getGlobalArguments_events self history) as Hw.
  rewrite Hg in Hw. simpl in Hw.
  destruct (or_default (up_detach o) true) eqn:Hdetach; simpl.
  - split; [|split].
    + set_solver.
    + split; [done|]. intros _. set_solver.
    + intros Hfalse. rewrite Hfalse in Hdetach. done.
  - split; [|split].
    + set_solver.
    + split; [|done]. intros Hin. exfalso. revert Hin.
      apply trace_no_await; [done|]. apply spawn_no_await.
    + intros _. split; [done|]. split; [|done].
      intros c. apply trace_no_await; [done|]. apply spawn_no_await.
Qed.

(** ** The call surface *)

(** C4, as the code has it. [up] and [command] fulfil with a result that
    holds the handle of the process they spawned: [command] without ever
    awaiting it, [up] after awaiting it exactly when [detach] is true.
    [run], [rm] and [down] await the process they spawned and fulfil with
    [undefined]: no handle reaches their caller. *)
Theorem call_surface_results self call history v events :
  invoke self call history = (Fulfilled v, events) →
  ∃ g events0,
    _getGlobalArguments self history = (Fulfilled g, events0) ∧
    let child :=
      spawned (history ++ events0) g (call_arguments call) (call_options call) in
    EvExeca child ∈ events ∧
    match call with
    | CallCommand _ _ =>
        v = ReturnedResult {| childProcess := child |} ∧
        ∀ c, EvAwait c ∉ events
    | CallUp options _ =>
        v = ReturnedResult {| childProcess := child |} ∧
        (EvAwait child ∈ events ↔
         or_default (up_detach (or_default options UpOptions_empty)) true = true)
    | CallRun _ _ _ _ _ | CallRm _ _ | CallDown _ _ =>
        v = ReturnedUndefined ∧ EvAwait child ∈ events
    end.
Proof.
  rewrite invoke_unfold.
  pose proof (_getGlobalArguments_events self history) as Hw.
  destruct (_getGlobalArguments self history) as [[g|e] events0]; [|done].
  simpl in Hw. cbv zeta. intros Hinvoke. exists g, events0. split; [done|].
  destruct (call_awaits call) eqn:Hawaits.
  - destruct (child_completion _ _) as [rv|e]; [|done].
    injection Hinvoke as <- <-. split; [set_solver|].
    destruct call; simpl in *; try done.
    + split; [done|]. unfold truthy, truthy_bool in Hawaits.
      rewrite Hawaits. split; [done|]. intros _. set_solver.
    + split; [done|]. set_solver.
    + split; [done|]. set_solver.
    + split; [done|]. set_solver.
  - injection Hinvoke as <- <-. split; [set_solver|].
    destruct call; simpl in *; try done.
    + split; [done|]. intros c.
      apply trace_no_await; [done|]. apply spawn_no_await.
    + split; [done|]. unfold truthy, truthy_bool in Hawaits.
      rewrite Hawaits. split; [|done]. intros Hin. exfalso. revert Hin.
      apply trace_no_await; [done|]. apply spawn_no_await.
Qed.

(** ** Global arguments *)

Lemma spawn_of_writes events (tail : Trace) child :
  Forall is_write events → EvExeca child ∈ events ++ tail →
  EvExeca child ∈ tail.
Proof.
  intros Hw [Hin|Hin]%elem_of_app; [|done].
  rewrite Forall_forall in Hw. by apply Hw in Hin.
Qed.

Lemma spawned_is_unique child0 child (spawn : Trace) :
  EvExeca child ∈ spawn →
  Forall (λ ev, ∀ c, ev = EvExeca c → c = child0) spawn →
  child = child0.
Proof.
  rewrite Forall_forall. intros Hin Hall. by apply (Hall _ Hin).
Qed.

(** C5, as the code has it. The argument vector of every process a call
    spawns is the [--file] pairs followed by the arguments of the
    subcommand, with the two tokens [--project-name], [<name>] right
    before the [--file] pairs exactly when the session has a non-empty
    project name; with no project name, or an empty one, nothing precedes
    the [--file] pairs. *)
Theorem project_name_flag self call history child :
  EvExeca child ∈ (invoke self call history).2 →
  ∃ filesArguments,
    (_getFilesArguments self history).1 = Fulfilled filesArguments ∧
    match _projectName self with
    | Some name =>
        if decide (name = EmptyString)
        then child_args child = filesArguments ++ call_arguments call
        else child_args child =
             "--project-name" :: name :: filesArguments ++ call_arguments call
    | None => child_args child = filesArguments ++ call_arguments call
    end.
Proof.
  rewrite invoke_unfold.
  pose proof (_getGlobalArguments_events self history) as Hw.
  rewrite _getGlobalArguments_unfold in *.
  pose proof (_getFilesArguments_events self history) as Hw'.
  destruct (_getFilesArguments self history) as [[fa|e] events0]; simpl in *.
  - intros Hin. exists fa. split; [done|].
    assert (child = spawned (history ++ events0)
              (project_name_arguments self ++ fa) (call_arguments call)
              (call_options call)) as ->.
    { destruct (call_awaits call); simpl in Hin;
        apply spawn_of_writes in Hin; try done;
        (eapply spawned_is_unique; [exact Hin|]);
        repeat constructor; congruence. }
    unfold project_name_arguments, spread_if. simpl.
    destruct (_projectName self) as [name|]; [|done].
    by destruct name as [|a name].
  - intros Hin. rewrite Forall_forall in Hw'. by apply Hw' in Hin.
Qed.

(** ** Failure of the resolver *)

(** An element whose serialization throws, or whose write is rejected
    whatever happened before, makes its [_getFile] promise reject. *)
Lemma failed_element_rejects self history i config e0 :
  normalized_files self !! i = Some (Inline config) →
  (YAML_dump config = Rejected e0 ∨
   ∃ yamlString,
     YAML_dump config = Fulfilled yamlString ∧
     ∀ history',
       (fs_writeFile history' (resolved_path self i (Inline config)) yamlString).2
       = Some e0) →
  ∃ p, p ∈ (map_getFile self (normalized_files self) 0 history).1 ∧
       result p = Rejected e0.
Proof.
  intros Hi Hfail.
  destruct (map_getFile_lookup self (normalized_files self) 0 history)
    as [_ Hlookup].
  destruct (Hlookup _ _ Hi) as [history' Hp].
  eexists. split; [by eapply list_elem_of_lookup_2|].
  simpl. destruct Hfail as [->|(yamlString & -> & Hwrite)]; [done|].
  specialize (Hwrite history'). simpl in Hwrite.
  destruct (fs_writeFile _ _ _) as [turn failure]. simpl in *. by subst.
Qed.

(** C9. If the promise of [_getFile] for some configuration element
    rejects, every method of the call surface rejects with the error of
    an element that failed to materialize (the error its serialization
    threw or its write was rejected with, as it is), and the call spawns
    nothing: its only events are file writes. *)
Theorem materialization_failure_prevents_spawn self call history p e0 :
  p ∈ (map_getFile self (normalized_files self) 0 history).1 →
  result p = Rejected e0 →
  ∃ e,
    (invoke self call history).1 = Rejected e ∧
    (∃ p', p' ∈ (map_getFile self (normalized_files self) 0 history).1 ∧
           result p' = Rejected e) ∧
    (∃ i f, normalized_files self !! i = Some f ∧
            fails_to_materialize self i f e) ∧
    Forall is_write (invoke self call history).2 ∧
    ∀ child, EvExeca child ∉ (invoke self call history).2.
Proof.
  intros Hin Hp.
  destruct (Promise_all_rejects _ _ _ Hin Hp) as [e He].
  pose proof (_getFilesArguments_events self history) as Hw.
  pose proof (Promise_all_result
                (map_getFile self (normalized_files self) 0 history).1) as Hall.
  rewrite invoke_unfold, _getGlobalArguments_unfold.
  rewrite _getFilesArguments_unfold in *. cbv zeta in *.
  rewrite He in *. simpl in *.
  destruct Hall as (p' & Hin' & Hp').
  exists e. split; [done|]. split; [eauto|].
  split; [by eapply map_getFile_rejection|]. split; [done|].
  intros child Hchild. rewrite Forall_forall in Hw. by apply Hw in Hchild.
Qed.

(** ** Map-valued options *)

(** [Object.entries] lists every own property, and nothing else. *)
Lemma elem_of_Object_entries {V} (o : object V) (kv : string * V) :
  kv ∈ Object_entries o ↔ kv ∈ o.
Proof.
  unfold Object_entries.
  rewrite elem_of_app, list_elem_of_fmap, list_elem_of_filter. split.
  - intros [([i kv'] & -> & Hin)|[_ Hin]]; [|done].
    rewrite merge_sort_Permutation in Hin.
    apply list_elem_of_omap in Hin as (kv0 & Hin & Heq).
    destruct (array_index kv0.1); simplify_eq/=. done.
  - intros Hin. destruct (array_index kv.1) as [i|] eqn:Hindex.
    + left. exists (i, kv). split; [done|].
      rewrite merge_sort_Permutation. apply list_elem_of_omap.
      exists kv. by rewrite Hindex.
    + by right.
Qed.

Lemma bind_elem_of_split {A B} (f : A → list B) (l : list A) (x : A) :
  x ∈ l → ∃ before after, l ≫= f = before ++ f x ++ after.
Proof.
  intros (l1 & l2 & ->)%list_elem_of_split.
  exists (l1 ≫= f), (l2 ≫= f). by rewrite bind_app, bind_cons.
Qed.

Lemma _joinArgumentsRecord_entry option separator (record : object value) key v :
  (key, v) ∈ record →
  ∃ before after,
    _joinArgumentsRecord option separator record =
    before ++ [option; key +:+ separator_string separator +:+ ToString v] ++ after.
Proof.
  intros Hin. unfold _joinArgumentsRecord. cbv zeta.
  apply elem_of_Object_entries in Hin.
  apply (bind_elem_of_split
           (λ entry, [option; entry_join (separator_string separator) entry]))
    in Hin.
  exact Hin.
Qed.

Lemma infix_app_r {A} (middle x l : list A) :
  (∃ before after, l = before ++ middle ++ after) →
  ∃ before after, x ++ l = before ++ middle ++ after.
Proof.
  intros (before & after & ->). exists (x ++ before), after.
  by rewrite <- app_assoc.
Qed.

Lemma infix_app_l {A} (middle l y : list A) :
  (∃ before after, l = before ++ middle ++ after) →
  ∃ before after, l ++ y = before ++ middle ++ after.
Proof.
  intros (before & after & ->). exists before, (after ++ y).
  by rewrite <- !app_assoc.
Qed.


(** ** [run] *)

Lemma run_unfold self service command_ args options execaOptions history :
  run self service command_ args options execaOptions history =
  let arguments :=
    run_arguments service command_ args (or_default options RunOptions_empty) in
  match _getGlobalArguments self history with
  | (Fulfilled g, events) =>
      let child := spawned (history ++ events) g arguments execaOptions in
      let spawn := [EvLog "docker-compose" (g ++ arguments); EvExeca child] in
      (match child_completion (history ++ events ++ spawn) child with
       | Fulfilled _ => Fulfilled tt
       | Rejected e => Rejected e
       end,
       events ++ spawn ++ [EvAwait child])
  | (Rejected e, events) => (Rejected e, events)
  end.
Proof.
  unfold run. cbv zeta.
  by rewrite (command_await_unfold self _ _ _ (λ _, tt)).
Qed.

(** C6. [run('svc', undefined, ['--flag'], { env: { A: '1', B: '2' } })]
    hands [command] the vector [run --detach --env A=1 --env B=2 svc
    --flag]: one [--env] pair per entry, in insertion order, then the
    service and the trailing argument, and no token for the undefined
    command. The process is spawned with the global arguments followed by
    that vector. *)
Theorem run_env_example self execaOptions history g events :
  _getGlobalArguments self history = (Fulfilled g, events) →
  let options :=
    run_with_env RunOptions_empty (Some (literal [("A", "1"); ("B", "2")])) in
  let arguments :=
    ["run"; "--detach"; "--env"; "A=1"; "--env"; "B=2"; "svc"; "--flag"] in
  run_arguments "svc" None ["--flag"] options = arguments ∧
  ∃ child,
    child_args child = g ++ arguments ∧
    (EvExeca child
       ∈ (run self "svc" None ["--flag"] (Some options) execaOptions history).2).
Proof.
  intros Hg options arguments.
  assert (run_arguments "svc" None ["--flag"] options = arguments) as Hargs.
  { vm_compute. reflexivity. }
  split; [exact Hargs|].
  exists (spawned (history ++ events) g arguments execaOptions).
  split; [reflexivity|].
  rewrite run_unfold, Hg. cbv zeta. simpl or_default. rewrite Hargs.
  simpl. set_solver.
Qed.

(** C10. An empty inline command is dropped like an undefined one: the
    argument vectors agree, and so does everything [run] does with them. *)
Theorem run_empty_command self service args options execaOptions history :
  run_arguments service (Some EmptyString) args (or_default options RunOptions_empty)
  = run_arguments service None args (or_default options RunOptions_empty) ∧
  run self service (Some EmptyString) args options execaOptions history
  = run self service None args options execaOptions history.
Proof. split; reflexivity. Qed.

(** ** [down] *)

(** C7. [down({ timeout: 5 })] hands [command] the vector [down],
    [--timeout], [5]. Whatever [removeOrphans] and [rmi] are, the two
    tokens [--timeout], [5] end the vector, after the [--remove-orphans]
    flag and the [--rmi] pair when these are set, and the joined token
    [--timeout=5] does not occur. *)
Theorem down_timeout_tokens removeOrphans rmi :
  let arguments :=
    down_arguments
      {| down_removeOrphans := removeOrphans; down_rmi := rmi;
         down_timeout := Some 5%Z; down_volumes := None |} in
  down_arguments (down_with_timeout DownOptions_empty (Some 5%Z))
    = ["down"; "--timeout"; "5"] ∧
  ("--timeout=5" ∉ arguments) ∧
  ∃ flags,
    arguments = ["down"] ++ flags ++ ["--timeout"; "5"] ∧
    (removeOrphans = Some true → "--remove-orphans" ∈ flags) ∧
    (∀ mode, rmi = Some mode →
       ∃ before, flags = before ++ ["--rmi"; RmiMode_string mode]).
Proof.
  intros arguments. split; [reflexivity|]. split.
  - subst arguments.
    destruct removeOrphans as [[]|], rmi as [[]|]; vm_compute;
      intros Hin; repeat (apply elem_of_cons in Hin as [?|Hin]; [done|]);
      by apply elem_of_nil in Hin.
  - subst arguments.
    exists (spread_if removeOrphans (λ _, ["--remove-orphans"])
            ++ spread_if rmi (λ r, ["--rmi"; RmiMode_string r])).
    split; [|split].
    + by destruct removeOrphans as [[]|], rmi as [[]|].
    + intros ->. simpl. set_solver.
    + intros mode ->.
      exists (spread_if removeOrphans (λ _, ["--remove-orphans"])).
      by destruct mode.
Qed.


(** * Further properties of the class *)

(** ** Standard streams *)


(** ** One process per call *)

(** Whatever the call, at most one process is spawned. It runs
    [docker-compose] with the options [command] derives from those of the
    call, only file writes precede it, the debug log of the same command
    line comes right before it, and the only thing that can follow is the
    await of that very process. *)
Theorem one_process_per_call self call history child :
  EvExeca child ∈ (invoke self call history).2 →
  child_file child = "docker-compose" ∧
  child_options child = spawn_options (call_options call) ∧
  (∀ child', EvExeca child' ∈ (invoke self call history).2 → child' = child) ∧
  ∃ writes after,
    (invoke self call history).2 =
      writes ++ [EvLog "docker-compose" (child_args child); EvExeca child]
      ++ after ∧
    Forall is_write writes ∧
    (after = [] ∨ after = [EvAwait child]).
Proof.
  rewrite invoke_unfold.
  pose proof (_getGlobalArguments_events self history) as Hw.
  destruct (_getGlobalArguments self history) as [[g|e] events0]; simpl in *.
  - set (child0 := spawned (history ++ events0) g (call_arguments call)
                     (call_options call)).
    intros Hin.
    assert (∀ c, EvExeca c ∈ (if call_awaits call
              then (match child_completion
                            (history ++ events0 ++
                             [EvLog "docker-compose" (g ++ call_arguments call);
                              EvExeca child0]) child0 with
                    | Fulfilled _ => Fulfilled (call_returns call child0)
                    | Rejected e => Rejected e
                    end,
                    events0 ++ [EvLog "docker-compose" (g ++ call_arguments call);
                                EvExeca child0] ++ [EvAwait child0])
              else (Fulfilled (call_returns call child0),
                    events0 ++ [EvLog "docker-compose" (g ++ call_arguments call);
                                EvExeca child0])).2 → c = child0) as Hone.
    { intros c Hc. destruct (call_awaits call); simpl in Hc;
        apply spawn_of_writes in Hc; try done;
        (eapply spawned_is_unique; [exact Hc|]);
        repeat constructor; congruence. }
    rewrite (Hone child Hin). split; [done|]. split; [done|]. split.
    + intros child' Hin'. by apply Hone.
    + destruct (call_awaits call); simpl.
      * exists events0, [EvAwait child0]. split; [done|]. split; [done|]. by right.
      * exists events0, []. split; [done|]. split; [done|]. by left.
  - intros Hin. rewrite Forall_forall in Hw. by apply Hw in Hin.
Qed.

(** ** What the resolver writes *)

(** The events of [files.map(...)] do not depend on where the numbering
    starts being unfolded: one write per structured element that
    serializes. *)
Lemma map_getFile_writes self files start history :
  (map_getFile self files start history).2 =
  mjoin (imap (λ i f,
    match f with
    | Inline config =>
        match YAML_dump config with
        | Fulfilled yamlString =>
            [EvWriteFile
               (path_join (_directory self)
                  ("docker-compose." +:+ pretty (start + i) +:+ ".yml"))
               yamlString]
        | Rejected _ => []
        end
    | Path _ => []
    end) files).
Proof.
  revert start history.
  induction files as [|f files IH]; intros start history; [done|].
  rewrite imap_cons. simpl.
  destruct (_getFile self f start history) as [p events] eqn:Hp.
  specialize (IH (S start) (history ++ events)).
  destruct (map_getFile self files (S start) (history ++ events))
    as [ps events'].
  simpl in *. rewrite IH. f_equal.
  - rewrite Nat.add_0_r. destruct f as [path|config]; simpl in Hp.
    + by injection Hp as <- <-.
    + destruct (YAML_dump config); [|by injection Hp as <- <-].
      destruct (fs_writeFile _ _ _). by injection Hp as <- <-.
  - f_equal. apply imap_ext. intros i f' _. simpl.
    by rewrite Nat.add_succ_r.
Qed.

(** The resolver writes one file per structured element that serializes,
    in source order, to [docker-compose.<i>.yml] in the working directory
    with the serialization as content. String elements write nothing, and
    neither a serialization that throws nor a write that fails keeps the
    other elements from being written. *)
Theorem resolver_writes self history :
  (_getFilesArguments self history).2 =
  mjoin (imap (λ i f,
    match f with
    | Inline config =>
        match YAML_dump config with
        | Fulfilled yamlString =>
            [EvWriteFile
               (path_join (_directory self)
                  ("docker-compose." +:+ pretty i +:+ ".yml"))
               yamlString]
        | Rejected _ => []
        end
    | Path _ => []
    end) (normalized_files self)).
Proof.
  rewrite _getFilesArguments_unfold. cbv zeta.
  rewrite map_getFile_writes.
  by destruct (result (Promise_all _)).
Qed.

(** Nothing is cached between calls: whatever happened before, and
    whichever method is called, a call starts by issuing the same writes,
    to the same paths with the same content, and writes nothing after
    them. *)
Theorem every_call_rewrites_the_files self call history :
  ∃ rest,
    (invoke self call history).2 = (_getFilesArguments self []).2 ++ rest ∧
    Forall (λ ev, ¬ is_write ev) rest.
Proof.
  assert ((_getFilesArguments self history).2 = (_getFilesArguments self []).2)
    as Hsame.
  { rewrite !_getFilesArguments_unfold. cbv zeta.
    rewrite !map_getFile_writes.
    by do 2 destruct (result (Promise_all _)). }
  rewrite invoke_unfold, _getGlobalArguments_unfold, <- Hsame.
  destruct (_getFilesArguments self history) as [[fa|e] events0]; simpl.
  - destruct (call_awaits call); simpl.
    + eexists. split; [done|]. repeat constructor; by intros [].
    + eexists. split; [done|]. repeat constructor; by intros [].
  - exists []. by rewrite app_nil_r.
Qed.

Lemma map_getFile_paths self (paths : list string) start history :
  map_getFile self (Path <$> paths) start history =
  ((λ path, {| settles_at := 0; result := Fulfilled path |}) <$> paths, []).
Proof.
  revert start history.
  induction paths as [|path paths IH]; intros start history; [done|].
  simpl. by rewrite IH.
Qed.

Lemma Promise_all_fulfilled {E A} (values : list A) :
  result (Promise_all
            ((λ a, {| settles_at := 0; result := @Fulfilled E A a |}) <$> values))
  = Fulfilled values.
Proof.
  set (ps := (λ a, {| settles_at := 0; result := @Fulfilled E A a |}) <$> values).
  assert (first_rejection ps = None ∧ fulfilled_values ps = values)
    as [Hnone Hvalues].
  { subst ps. induction values as [|a values [IH1 IH2]]; [done|].
    csimpl. by rewrite IH1, IH2. }
  unfold Promise_all. rewrite Hnone. simpl. by rewrite Hvalues.
Qed.

(** A session made of file paths only never touches the file system and
    its resolver cannot fail: it yields the [--file] pairs of the paths,
    as given. *)
Theorem paths_only_session self (paths : list string) history :
  normalized_files self = Path <$> paths →
  _getFilesArguments self history =
  (Fulfilled (paths ≫= (λ path, ["--file"; path])), []).
Proof.
  intros Hpaths. rewrite _getFilesArguments_unfold, Hpaths. cbv zeta.
  rewrite map_getFile_paths. cbn [fst snd].
  by rewrite Promise_all_fulfilled.
Qed.

(** ** File names *)

Lemma string_length_app (s1 s2 : string) :
  String.length (s1 +:+ s2) = String.length s1 + String.length s2.
Proof. induction s1 as [|a s1 IH]; simpl; [done | by rewrite IH]. Qed.

Lemma string_app_inv_tail (s1 s2 tail : string) :
  s1 +:+ tail = s2 +:+ tail → s1 = s2.
Proof.
  intros Heq.
  assert (String.length s1 = String.length s2) as Hlen.
  { apply (f_equal String.length) in Heq.
    rewrite !string_length_app in Heq. lia. }
  revert s2 Heq Hlen.
  induction s1 as [|a s1 IH]; intros [|b s2] Heq Hlen; simpl in *;
    try done.
  injection Heq as -> Heq. f_equal. apply IH; [done | lia].
Qed.

Lemma list_ascii_of_string_app (s1 s2 : string) :
  String.list_ascii_of_string (s1 +:+ s2)
  = String.list_ascii_of_string s1 ++ String.list_ascii_of_string s2.
Proof. induction s1 as [|a s1 IH]; simpl; [done | by rewrite IH]. Qed.

Lemma pretty_N_char_portable (x : N) : portable_char (pretty_N_char x) = true.
Proof. unfold pretty_N_char. by repeat case_match. Qed.

Lemma pretty_N_go_portable (x : N) (s : string) :
  forallb portable_char (String.list_ascii_of_string s) = true →
  forallb portable_char (String.list_ascii_of_string (pretty_N_go x s)) = true.
Proof.
  revert s. induction (N.lt_wf_0 x) as [x _ IH]; intros s Hs.
  assert (x = 0 ∨ 0 < x)%N as [->|Hpos] by lia.
  - by rewrite pretty_N_go_0.
  - rewrite pretty_N_go_step by done. apply IH.
    + by apply N.div_lt.
    + cbn [String.list_ascii_of_string forallb].
      by rewrite pretty_N_char_portable, Hs.
Qed.

Lemma pretty_nat_portable (i : nat) :
  forallb portable_char (String.list_ascii_of_string (pretty i)) = true.
Proof.
  unfold pretty, pretty_nat, pretty, pretty_N.
  case_decide; [done|]. by apply pretty_N_go_portable.
Qed.

(** The name [_getFile] builds for a position is a plain file name. *)
Lemma temporary_name_portable (i : nat) :
  portable_name ("docker-compose." +:+ pretty i +:+ ".yml").
Proof.
  split; [|by repeat split].
  rewrite !list_ascii_of_string_app, !forallb_app, pretty_nat_portable.
  done.
Qed.

(** Two structured elements at different positions never share a file:
    the names [docker-compose.<i>.yml] are plain file names that differ,
    and so do the paths, as long as [path.join] keeps two different plain
    names in one directory apart. *)
Theorem file_names_do_not_collide self i j (c1 c2 : Compose) :
  (∀ directory a b,
     portable_name a → portable_name b →
     path_join directory a = path_join directory b → a = b) →
  i ≠ j →
  resolved_path self i (Inline c1) ≠ resolved_path self j (Inline c2).
Proof.
  intros Hjoin Hij Heq. unfold resolved_path in Heq.
  apply Hjoin in Heq; [|apply temporary_name_portable..].
  apply (inj (String.append "docker-compose.")) in Heq.
  apply string_app_inv_tail in Heq.
  by apply (inj pretty) in Heq.
Qed.

(** ** Flags of a record *)

Lemma Object_entries_indexed {V} (o : list (string * V)) :
  snd <$> omap (λ kv, (λ i, (i, kv)) <$> array_index kv.1) o
  = filter keyed_by_index o.
Proof.
  induction o as [|kv o IH]; [done|].
  rewrite filter_cons. csimpl.
  destruct (array_index kv.1) as [i|] eqn:Hindex; csimpl.
  - rewrite decide_True by (unfold keyed_by_index; eauto). by rewrite IH.
  - rewrite decide_False; [done|].
    unfold keyed_by_index. rewrite Hindex. by intros [? ?].
Qed.

Lemma Object_entries_others {V} (o : list (string * V)) :
  filter (λ kv, array_index kv.1 = None) o
  = filter (λ kv, ¬ keyed_by_index kv) o.
Proof.
  apply list_filter_iff. intros kv. unfold keyed_by_index.
  rewrite <- eq_None_not_Some. done.
Qed.

Lemma Object_entries_Permutation {V} (o : list (string * V)) :
  Object_entries o ≡ₚ o.
Proof.
  unfold Object_entries, object.
  rewrite merge_sort_Permutation, Object_entries_indexed, Object_entries_others.
  apply filter_app_complement.
Qed.

Lemma Sorted_fmap_Forall {A B} (R1 : relation A) (R2 : relation B)
    (P : A → Prop) (f : A → B) (l : list A) :
  (∀ x y, P x → P y → R1 x y → R2 (f x) (f y)) →
  Forall P l → Sorted R1 l → Sorted R2 (f <$> l).
Proof.
  intros HR HP Hsorted. induction Hsorted as [|x l Hl IH Hhd]; csimpl.
  - constructor.
  - apply Forall_cons in HP as [Hx HP]. constructor; [by apply IH|].
    destruct Hhd as [|y l' Hxy]; csimpl; constructor.
    apply Forall_cons in HP as [Hy _]. by apply HR.
Qed.

#[local] Instance index_le_total {V} : Total (@index_le V).
Proof. intros a b. unfold index_le. lia. Qed.

(** [_joinArgumentsRecord] emits one pair per entry of the record, the
    flag at every even position: first the entries whose keys are array
    indices (canonical numerals below 2^32 - 1, such as port numbers), in
    ascending numeric order whatever the order they were written in, then
    all other entries in insertion order. *)
Theorem joinArgumentsRecord_order option separator
    (record : list (string * value)) :
  ∃ indexed,
    _joinArgumentsRecord option separator record =
      (indexed ++ filter (λ kv, array_index kv.1 = None) record)
      ≫= (λ entry, [option; entry_join (separator_string separator) entry]) ∧
    indexed ≡ₚ filter keyed_by_index record ∧
    Sorted index_order indexed ∧
    length (_joinArgumentsRecord option separator record) = 2 * length record ∧
    ∀ i, i < length record →
      _joinArgumentsRecord option separator record !! (2 * i) = Some option.
Proof.
  exists (snd <$> merge_sort index_le
            (omap (λ kv, (λ i, (i, kv)) <$> array_index kv.1) record)).
  split; [done|]. split; [|split; [|split]].
  - by rewrite merge_sort_Permutation, Object_entries_indexed.
  - apply (Sorted_fmap_Forall index_le index_order
             (λ x, array_index x.2.1 = Some x.1)).
    + intros [i a] [j b] Ha Hb Hle i' j' Hi' Hj'. simpl in *.
      unfold index_le in Hle. simpl in Hle. congruence.
    + rewrite merge_sort_Permutation. apply Forall_forall.
      intros [i kv] (kv' & _ & Hkv)%list_elem_of_omap.
      destruct (array_index kv'.1) eqn:Hindex; simplify_eq/=. done.
    + apply Sorted_merge_sort. apply _.
  - unfold _joinArgumentsRecord. cbv zeta.
    rewrite <- (Permutation_length (Object_entries_Permutation record)).
    generalize (Object_entries record). intros entries.
    induction entries as [|entry entries IH]; csimpl; [done | lia].
  - intros i Hi. unfold _joinArgumentsRecord. cbv zeta.
    rewrite <- (Permutation_length (Object_entries_Permutation record)) in Hi.
    revert i Hi. generalize (Object_entries record). intros entries.
    induction entries as [|entry entries IH]; intros i Hi; simpl in Hi; [lia|].
    rewrite bind_cons. destruct i as [|i]; [done|].
    replace (2 * S i) with (S (S (2 * i))) by lia.
    apply (IH i). lia.
Qed.

(** When no key of the record is an array index (environment variables,
    labels, service names), the pairs come out in insertion order. *)
Theorem joinArgumentsRecord_insertion_order option separator
    (record : list (string * value)) :
  Forall (λ kv, array_index kv.1 = None) record →
  _joinArgumentsRecord option separator record =
  record ≫= (λ entry, [option; entry_join (separator_string separator) entry]).
Proof.
  intros Hnone. unfold _joinArgumentsRecord, Object_entries, object. cbv zeta.
  assert (omap (λ kv : string * value, (λ i, (i, kv)) <$> array_index kv.1) record
          = []) as ->.
  { induction Hnone as [|kv record Hkv _ IH]; [done|]. csimpl.
    by rewrite Hkv, IH. }
  assert (filter (λ kv : string * value, array_index kv.1 = None) record
          = record) as ->.
  { induction Hnone as [|kv record Hkv _ IH]; [done|].
    rewrite filter_cons, decide_True by done. by rewrite IH. }
  done.
Qed.

(** ** Flags and blocking of [up] *)

Lemma elem_of_spread_if `{Truthy A} {B} (x : option A) (f : A → list B) (b : B) :
  b ∈ spread_if x f ↔ ∃ a, x = Some a ∧ truthy a = true ∧ b ∈ f a.
Proof.
  unfold spread_if. destruct x as [a|].
  - destruct (truthy a) eqn:Ha.
    + split; [eauto|]. by intros (a' & [= <-] & _ & Hin).
    + split; [by intros ?%elem_of_nil|].
      intros (a' & [= <-] & Htrue & _). congruence.
  - split; [by intros ?%elem_of_nil|]. by intros (a' & ? & _).
Qed.

(** A token with an equals sign in it is not the bare flag. *)
Lemma detach_is_no_entry (k v : string) : "--detach" ≠ k +:+ "=" +:+ v.
Proof.
  intros H.
  do 8 (destruct k as [|? k]; simpl in H; [discriminate H|injection H as _ H]).
  destruct k; discriminate H.
Qed.

Ltac not_this_flag H :=
  try apply elem_of_spread_if in H as (? & ? & ? & H);
  repeat (apply elem_of_cons in H as [H|H];
          [try (simpl in H; discriminate H)|]);
  try (by apply elem_of_nil in H);
  try (by simplify_eq/=).

Lemma up_detach_flag (o : UpOptions) :
  "--detach" ∈ up_arguments o ↔ or_default (up_detach o) true = true.
Proof.
  unfold up_arguments. cbv zeta.
  destruct (or_default (up_detach o) true) eqn:Hdetach.
  - split; [done|]. intros _.
    do 6 (apply elem_of_app; right). apply elem_of_app. left.
    apply elem_of_cons. by left.
  - split; [|done]. intros Hin. exfalso.
    repeat (apply elem_of_app in Hin as [Hin|Hin]); not_this_flag Hin.
    + apply list_elem_of_fmap in Hin as (service & Hin & _).
      simpl in Hin. discriminate Hin.
    + apply list_elem_of_fmap in Hin as (service & Hin & _).
      simpl in Hin. discriminate Hin.
    + unfold _joinArgumentsRecord in Hin. cbv zeta in Hin.
      apply list_elem_of_bind in Hin as (entry & Hin & _).
      not_this_flag Hin. by apply detach_is_no_entry in Hin.
Qed.

(** [up] blocks on the process exactly when it told compose to detach:
    the [--detach] flag is among the arguments [up] builds if and only if
    the call awaits the process it spawned. *)
Theorem up_detach_flag_iff_awaited self options execaOptions history g events :
  _getGlobalArguments self history = (Fulfilled g, events) →
  let o := or_default options UpOptions_empty in
  let child := spawned (history ++ events) g (up_arguments o) execaOptions in
  "--detach" ∈ up_arguments o ↔
  EvAwait child ∈ (up self options execaOptions history).2.
Proof.
  intros Hg o child. rewrite up_detach_flag, up_unfold, Hg. cbv zeta.
  fold o. fold child.
  pose proof (_getGlobalArguments_events self history) as Hw.
  rewrite Hg in Hw. simpl in Hw.
  destruct (or_default (up_detach o) true); simpl.
  - split; [|done]. intros _.
    apply elem_of_app. right. by apply (list_elem_of_lookup_2 _ 2).
  - split; [done|]. intros Hin. exfalso. revert Hin.
    apply trace_no_await; [done|]. apply spawn_no_await.
Qed.

(** ** Layout of the [run] vector *)

(** The flags [run] emits depend on the options only; the service, the
    inline command when it is a non-empty string, and the trailing
    arguments follow them, as given and in this order, at the very end of
    the vector. *)
Theorem run_arguments_layout (o : RunOptions) :
  ∃ flags, ∀ service command args,
    run_arguments service command args o
    = ["run"] ++ flags ++ [service] ++ spread_if command (λ c, [c]) ++ args.
Proof.
  eexists. intros service command args. unfold run_arguments. cbv zeta.
  f_equal.
  repeat lazymatch goal with
         | |- _ ++ [service] ++ _ = _ => reflexivity
         | |- ?a ++ ?b ++ ?c = _ => rewrite (app_assoc a b c)
         end.
Qed.

(** ** Timeouts *)


(** ** Flags of [rm] *)

(** [rm] emits [--stop], [--force] and [--volumes], each exactly when its
    option is [true], in this order after [rm], and nothing else. *)
Theorem rm_flags (o : RmOptions) :
  ("--stop" ∈ rm_arguments o ↔ rm_stop o = Some true) ∧
  ("--force" ∈ rm_arguments o ↔ rm_force o = Some true) ∧
  ("--volumes" ∈ rm_arguments o ↔ rm_volumes o = Some true) ∧
  rm_arguments o `sublist_of` ["rm"; "--stop"; "--force"; "--volumes"] ∧
  head (rm_arguments o) = Some "rm".
Proof.
  destruct o as [[[]|] [[]|] [[]|]]; cbn;
    (split; [|split; [|split; [|split]]]); try done;
    try (split; [intros Hin; not_this_flag Hin | done]);
    try (split; [done | intros _; set_solver]);
    repeat first [apply sublist_nil | apply sublist_skip | apply sublist_cons].
Qed.

(** ** [up] of src/index.ts *)

(** In the reduced class [detach] has no default: [up] emits [--detach]
    and awaits the process only when [detach] is [true], and in every
    case resolves to [undefined]; without options the process is left
    running unobserved. *)
Theorem src_index_up_awaits_iff_detach self
    (options : option SrcIndex.UpOptions) history g events :
  _getGlobalArguments self history = (Fulfilled g, events) →
  let o := or_default options SrcIndex.UpOptions_empty in
  let child :=
    spawned (history ++ events) g (SrcIndex.up_arguments o) None in
  let spawn :=
    [EvLog "docker-compose" (g ++ SrcIndex.up_arguments o); EvExeca child] in
  (SrcIndex.up_detach o = Some true →
   SrcIndex.up self options history =
   (match child_completion (history ++ events ++ spawn) child with
    | Fulfilled _ => Fulfilled tt
    | Rejected e => Rejected e
    end, events ++ spawn ++ [EvAwait child]) ∧
   "--detach" ∈ SrcIndex.up_arguments o) ∧
  (SrcIndex.up_detach o ≠ Some true →
   SrcIndex.up self options history = (Fulfilled tt, events ++ spawn) ∧
   "--detach" ∉ SrcIndex.up_arguments o).
Proof.
  intros Hg o child spawn. unfold SrcIndex.up. fold o. cbv zeta.
  unfold SrcIndex._dockerCompose. split.
  - intros Hdetach. rewrite Hdetach. simpl. split.
    + rewrite (command_await_unfold self _ _ _ (λ _, tt)), Hg. done.
    + unfold SrcIndex.up_arguments. rewrite Hdetach. cbv zeta.
      apply elem_of_app. right. apply elem_of_app. right.
      apply elem_of_cons. by left.
  - intros Hdetach.
    assert (truthy (SrcIndex.up_detach o) = false) as Hfalse.
    { by destruct (SrcIndex.up_detach o) as [[]|]. }
    rewrite Hfalse. split.
    + rewrite (command_return_unfold self _ _ _ (λ _, tt)), Hg. done.
    + unfold SrcIndex.up_arguments. cbv zeta. intros Hin.
      repeat (apply elem_of_app in Hin as [Hin|Hin]); not_this_flag Hin.
      * unfold SrcIndex._getScaleArguments in Hin. cbv zeta in Hin.
        apply list_elem_of_bind in Hin as (entry & Hin & _).
        not_this_flag Hin. by apply detach_is_no_entry in Hin.
      * destruct (SrcIndex.up_detach o) as [[]|]; by simplify_eq/=.
Qed.

(** ** Where files are written *)


(** ** Independence of the flags of [up] *)

Lemma entry_has_equals (flag : string) (entry : string * value) :
  flag = entry_join "=" entry →
  existsb (Ascii.eqb (Ascii.ascii_of_nat 61)) (String.list_ascii_of_string flag)
  = true.
Proof.
  intros ->. unfold entry_join.
  set (equals := Ascii.ascii_of_nat 61).
  induction (entry.1) as [|a k IH]; [reflexivity|].
  change (existsb (Ascii.eqb equals)
            (String.list_ascii_of_string
               (String a k +:+ "=" +:+ ToString entry.2)))
    with (Ascii.eqb equals a
          || existsb (Ascii.eqb equals)
               (String.list_ascii_of_string (k +:+ "=" +:+ ToString entry.2))).
  rewrite IH. apply orb_true_r.
Qed.

Lemma spread_if_true {B} (f : bool → list B) : spread_if (Some true) f = f true.
Proof. reflexivity. Qed.

Ltac flag_absent Hin :=
  repeat (apply elem_of_app in Hin as [Hin|Hin]);
  not_this_flag Hin;
  try (apply list_elem_of_fmap in Hin as (? & Hin & _);
       simpl in Hin; discriminate Hin);
  try (unfold _joinArgumentsRecord in Hin; cbv zeta in Hin;
       apply list_elem_of_bind in Hin as (? & Hin & _);
       not_this_flag Hin;
       apply entry_has_equals in Hin; vm_compute in Hin; discriminate Hin).

Ltac flag_present :=
  rewrite spread_if_true;
  repeat first
    [ apply elem_of_app; left; apply list_elem_of_here
    | apply list_elem_of_here
    | apply elem_of_app; right ].

(** No option of [up] suppresses, implies or validates another: each
    bare flag (other than [--detach]) is in the vector if and only if its
    own option is [true], whatever the other options, lists and maps hold.
    In particular options documented as incompatible, such as
    [forceRecreate] and [noRecreate], are passed on together. *)
Theorem up_flags_independent (o : UpOptions) flag field :
  (flag, field) ∈ up_boolean_flags →
  flag ∈ up_arguments o ↔ field o = Some true.
Proof.
  intros Htable. unfold up_boolean_flags in Htable.
  repeat (apply elem_of_cons in Htable as [[= -> ->]|Htable]);
    [..|by apply elem_of_nil in Htable];
    unfold up_arguments; cbv zeta;
    match goal with
    | |- _ ↔ ?f o = Some true => destruct (f o) as [[]|] eqn:Hf
    end;
    (split; [intros Hin|intros Heq]);
    try done; try flag_present; exfalso; flag_absent Hin.
Qed.

End Properties.

(** ** The reduced class of src/index.ts *)

(** C2 fails on the [up] of src/index.ts. There [detach] has no default:
    [up({})], like [up()], hands [_dockerCompose] the single token [up],
    without [--detach], and resolves to [undefined] without awaiting the
    process it spawned, where the [up] of the full class passes [up],
    [--detach] and awaits. *)
Lemma src_index_up_without_options :
  up_arguments UpOptions_empty = ["up"; "--detach"] ∧
  SrcIndex.up_arguments SrcIndex.UpOptions_empty = ["up"] ∧
  SrcIndex.up Sample.overlay None []
  = SrcIndex.up Sample.overlay (Some SrcIndex.UpOptions_empty) [] ∧
  SrcIndex.up Sample.overlay (Some SrcIndex.UpOptions_empty) [] =
  let args := ["--project-name"; "demo";
               "--file"; "/work/docker-compose.0.yml";
               "--file"; "override.yml";
               "--file"; "/work/docker-compose.2.yml";
               "up"] in
  let child :=
    {| child_id := 2; child_file := "docker-compose"; child_args := args;
       child_options := {| spawn_stdio := "pipe"; spawn_passthrough := None |} |} in
  (Fulfilled tt,
   [EvWriteFile "/work/docker-compose.0.yml" "services: {}";
    EvWriteFile "/work/docker-compose.2.yml" "version: '3.9'";
    EvLog "docker-compose" args; EvExeca child]).
Proof. repeat split; vm_compute; reflexivity. Qed.

(** ** Concrete runs *)

Example up_arguments_readme :
  up_arguments
    {| up_abortOnContainerExit := None; up_alwaysRecreateDeps := None;
       up_attach := Some ["kafka"]; up_attachDependencies := None;
       up_build := Some true; up_detach := Some false;
       up_exitCodeFrom := None; up_forceRecreate := None;
       up_noAttach := None; up_noBuild := None; up_noDeps := None;
       up_noLogPrefix := None; up_noRecreate := None; up_noStart := None;
       up_pull := Some pull_missing; up_quietPull := None;
       up_removeOrphans := None; up_renewAnonVolumes := None;
       up_scale := Some (literal [("kafka-ui", 0%Z); ("10", 2%Z); ("9", 1%Z)]);
       up_timeout := Some 30%Z; up_timestamps := None; up_wait := None |}
  = ["up"; "--attach=kafka"; "--build"; "--pull=missing";
     "--scale"; "9=1"; "--scale"; "10=2"; "--scale"; "kafka-ui=0";
     "--timeout=30"].
Proof. vm_compute. reflexivity. Qed.

Example sample_up_overlay :
  invoke Sample.overlay (CallUp None None) [] =
  let args := ["--project-name"; "demo";
               "--file"; "/work/docker-compose.0.yml";
               "--file"; "override.yml";
               "--file"; "/work/docker-compose.2.yml";
               "up"; "--detach"] in
  let child :=
    {| child_id := 2; child_file := "docker-compose"; child_args := args;
       child_options := {| spawn_stdio := "pipe"; spawn_passthrough := None |} |} in
  (Fulfilled (ReturnedResult {| childProcess := child |}),
   [EvWriteFile "/work/docker-compose.0.yml" "services: {}";
    EvWriteFile "/work/docker-compose.2.yml" "version: '3.9'";
    EvLog "docker-compose" args; EvExeca child; EvAwait child]).
Proof. vm_compute. reflexivity. Qed.

Example sample_rm_broken :
  invoke Sample.broken (CallRm None None) [] =
  (Rejected "YAMLException",
   [EvWriteFile "/readonly/docker-compose.0.yml" "services: {}"]).
Proof. vm_compute. reflexivity. Qed.

Example sample_single_inline :
  _getFilesArguments
    (new_DockerCompose
       {| file := OneFile (Inline "services: {}"); directory := None;
          projectName := None |}) [] =
  (Fulfilled ["--file"; "/tmp/docker-compose/docker-compose.0.yml"],
   [EvWriteFile "/tmp/docker-compose/docker-compose.0.yml" "services: {}"]).
Proof. vm_compute. reflexivity. Qed.

Lemma overlay_resolves :
  _getGlobalArguments Sample.overlay [] =
  (Fulfilled overlay_global_arguments, overlay_writes).
Proof. vm_compute. reflexivity. Defined.

Lemma getFilesArguments_file_pairs_witness :
  normalized_files Sample.overlay !! 2 = Some (Inline "version: '3.9'") ∧
  ∃ arguments,
    (_getFilesArguments Sample.overlay []).1 = Fulfilled arguments ∧
    length arguments = 6 ∧
    arguments !! 4 = Some "--file" ∧
    arguments !! 5 = Some "/work/docker-compose.2.yml".
Proof.
  split; [reflexivity|].
  pose proof (getFilesArguments_file_pairs Sample.overlay []) as H.
  cbv zeta in H.
  destruct ((_getFilesArguments Sample.overlay []).1) as [arguments|e] eqn:Hrun;
    [|discriminate Hrun].
  exists arguments. split; [reflexivity|].
  destruct H as [Hlen Hpairs].
  destruct (Hpairs 2 (Inline "version: '3.9'") eq_refl) as [H4 H5].
  split; [exact Hlen|]. split; [exact H4 | exact H5].
Defined.

Lemma up_defaults_witness :
  _getGlobalArguments Sample.overlay [] =
    (Fulfilled overlay_global_arguments, overlay_writes) ∧
  up_arguments UpOptions_empty = ["up"; "--detach"] ∧
  up Sample.overlay None None [] =
    up Sample.overlay (Some UpOptions_empty) None [].
Proof.
  split; [exact overlay_resolves|].
  destruct (up_defaults Sample.overlay None [] _ _ overlay_resolves)
    as (Hargs & _ & Hnone).
  split; [exact Hargs | exact Hnone].
Defined.

Lemma up_awaits_iff_detach_witness :
  _getGlobalArguments Sample.overlay [] =
    (Fulfilled overlay_global_arguments, overlay_writes) ∧
  up_detach attached = Some false ∧
  ∃ child,
    child_args child = overlay_global_arguments ++ ["up"] ∧
    (up Sample.overlay (Some attached) None []).1
      = Fulfilled {| childProcess := child |} ∧
    (EvExeca child ∈ (up Sample.overlay (Some attached) None []).2) ∧
    ∀ c, EvAwait c ∉ (up Sample.overlay (Some attached) None []).2.
Proof.
  split; [exact overlay_resolves|]. split; [reflexivity|].
  pose proof (up_awaits_iff_detach Sample.overlay (Some attached) None [] _ _
                overlay_resolves) as H.
  cbv zeta in H. destruct H as (Hspawn & _ & Hattached).
  destruct (Hattached eq_refl) as (Hout & Hnone & _).
  eexists. split; [|split; [exact Hout | split; [exact Hspawn | exact Hnone]]].
  reflexivity.
Defined.

Lemma call_surface_results_witness :
  invoke Sample.overlay (CallRm None None) [] =
    (let child := spawned overlay_writes overlay_global_arguments ["rm"] None in
     (Fulfilled ReturnedUndefined,
      overlay_writes
      ++ [EvLog "docker-compose" (overlay_global_arguments ++ ["rm"]);
          EvExeca child; EvAwait child])) ∧
  ∃ child : ExecaChildProcess unit,
    child_args child = overlay_global_arguments ++ ["rm"] ∧
    EvAwait child ∈ (invoke Sample.overlay (CallRm None None) []).2.
Proof.
  assert (invoke Sample.overlay (CallRm None None) [] =
          (let child :=
             spawned overlay_writes overlay_global_arguments ["rm"] None in
           (Fulfilled ReturnedUndefined,
            overlay_writes
            ++ [EvLog "docker-compose" (overlay_global_arguments ++ ["rm"]);
                EvExeca child; EvAwait child]))) as Hrun by reflexivity.
  split; [exact Hrun|].
  destruct (call_surface_results Sample.overlay (CallRm None None) [] _ _ Hrun)
    as (g & events0 & Hg & _ & _ & Hawait).
  rewrite overlay_resolves in Hg. injection Hg as <- <-.
  eexists. split; [|exact Hawait]. reflexivity.
Defined.

(** C4 fails for [rm] (and likewise [run] and [down]): the call completes,
    the process was spawned and awaited, and what the caller receives is
    [undefined], not a handle. *)
Lemma rm_returns_no_handle :
  (rm Sample.overlay None None []).1 = Fulfilled tt ∧
  (invoke Sample.overlay (CallRm None None) []).1 = Fulfilled ReturnedUndefined ∧
  ¬ ∃ r, (invoke Sample.overlay (CallRm None None) []).1
         = Fulfilled (ReturnedResult r).
Proof.
  split; [reflexivity|]. split; [reflexivity|].
  intros [r Hr]. discriminate Hr.
Qed.

Lemma project_name_flag_witness :
  let child :=
    spawned overlay_writes overlay_global_arguments ["down"] None in
  (EvExeca child ∈ (invoke Sample.overlay (CallDown None None) []).2) ∧
  _projectName Sample.overlay = Some "demo" ∧
  child_args child =
    "--project-name" :: "demo"
    :: ["--file"; "/work/docker-compose.0.yml"; "--file"; "override.yml";
        "--file"; "/work/docker-compose.2.yml"] ++ ["down"].
Proof.
  intros child.
  assert (EvExeca child ∈ (invoke Sample.overlay (CallDown None None) []).2)
    as Hin.
  { apply (list_elem_of_lookup_2 _ 3). reflexivity. }
  split; [exact Hin|]. split; [reflexivity|].
  destruct (project_name_flag Sample.overlay (CallDown None None) [] child Hin)
    as (filesArguments & Hfiles & Hargs).
  injection Hfiles as <-. exact Hargs.
Defined.

(** C5 fails for an empty project name: the session was given one, yet
    the global arguments do not start with [--project-name] and it. *)
Lemma empty_project_name_omitted :
  _projectName Sample.unnamed = Some EmptyString ∧
  _getGlobalArguments Sample.unnamed [] = (Fulfilled ["--file"; "a.yml"], []) ∧
  ¬ ∃ rest, (_getGlobalArguments Sample.unnamed []).1
            = Fulfilled ("--project-name" :: EmptyString :: rest).
Proof.
  split; [reflexivity|]. split; [reflexivity|].
  intros [rest Hrest]. discriminate Hrest.
Qed.

Lemma run_env_example_witness :
  _getGlobalArguments Sample.overlay [] =
    (Fulfilled overlay_global_arguments, overlay_writes) ∧
  ∃ child : ExecaChildProcess unit,
    child_args child =
      overlay_global_arguments
      ++ ["run"; "--detach"; "--env"; "A=1"; "--env"; "B=2"; "svc"; "--flag"] ∧
    (EvExeca child
       ∈ (run Sample.overlay "svc" None ["--flag"]
            (Some (run_with_env RunOptions_empty
                     (Some (literal [("A", "1"); ("B", "2")])))) None []).2).
Proof.
  split; [exact overlay_resolves|].
  destruct (run_env_example Sample.overlay None [] _ _ overlay_resolves)
    as (_ & child & Hargs & Hin).
  exists child. split; [exact Hargs | exact Hin].
Defined.

Lemma down_timeout_tokens_witness :
  down_arguments
    {| down_removeOrphans := Some true; down_rmi := Some rmi_all;
       down_timeout := Some 5%Z; down_volumes := None |}
  = ["down"; "--remove-orphans"; "--rmi"; "all"; "--timeout"; "5"] ∧
  ∃ flags,
    ["down"; "--remove-orphans"; "--rmi"; "all"; "--timeout"; "5"]
    = ["down"] ++ flags ++ ["--timeout"; "5"] ∧
    "--remove-orphans" ∈ flags ∧
    ∃ before, flags = before ++ ["--rmi"; "all"].
Proof.
  split; [reflexivity|].
  destruct (down_timeout_tokens (Some true) (Some rmi_all))
    as (_ & _ & flags & Hflags & Horphans & Hrmi).
  exists flags. split; [exact Hflags|]. split; [exact (Horphans eq_refl)|].
  exact (Hrmi rmi_all eq_refl).
Defined.


Lemma materialization_failure_prevents_spawn_witness :
  let p := {| settles_at := 0; result := Rejected "YAMLException" |} in
  (p ∈ (map_getFile Sample.broken (normalized_files Sample.broken) 0 []).1) ∧
  ∃ e,
    (invoke Sample.broken (CallUp None None) []).1 = Rejected e ∧
    ∀ child, EvExeca child ∉ (invoke Sample.broken (CallUp None None) []).2.
Proof.
  intros p.
  assert (p ∈ (map_getFile Sample.broken (normalized_files Sample.broken) 0 []).1)
    as Hin.
  { apply (list_elem_of_lookup_2 _ 1). reflexivity. }
  split; [exact Hin|].
  destruct (materialization_failure_prevents_spawn Sample.broken
              (CallUp None None) [] p "YAMLException" Hin eq_refl)
    as (e & Hrejected & _ & _ & _ & Hnone).
  exists e. split; [exact Hrejected | exact Hnone].
Defined.

(** ** Concrete runs of the further properties *)

Lemma one_process_per_call_witness :
  let child :=
    spawned overlay_writes overlay_global_arguments ["down"] None in
  (EvExeca child ∈ (invoke Sample.overlay (CallDown None None) []).2) ∧
  child_file child = "docker-compose" ∧
  spawn_stdio (child_options child) = "pipe" ∧
  ∀ child', EvExeca child' ∈ (invoke Sample.overlay (CallDown None None) []).2 →
            child' = child.
Proof.
  intros child.
  assert (EvExeca child ∈ (invoke Sample.overlay (CallDown None None) []).2)
    as Hin.
  { apply (list_elem_of_lookup_2 _ 3). reflexivity. }
  split; [exact Hin|].
  destruct (one_process_per_call Sample.overlay (CallDown None None) [] child Hin)
    as (Hfile & Hoptions & Hone & _).
  split; [exact Hfile|]. split; [|exact Hone].
  rewrite Hoptions. reflexivity.
Defined.

Lemma paths_only_session_witness :
  normalized_files Sample.unnamed = Path <$> ["a.yml"] ∧
  _getFilesArguments Sample.unnamed [EvWriteFile "x" "y"] =
  (Fulfilled ["--file"; "a.yml"], []).
Proof.
  split; [reflexivity|].
  exact (paths_only_session Sample.unnamed ["a.yml"] _ eq_refl).
Defined.

Lemma sample_join_inj (directory a b : string) :
  Sample.sample_join directory a = Sample.sample_join directory b → a = b.
Proof.
  unfold Sample.sample_join. intros H.
  apply (inj (String.append directory)) in H.
  by apply (inj (String.append "/")) in H.
Defined.

Lemma file_names_do_not_collide_witness :
  0 ≠ 2 ∧
  resolved_path Sample.overlay 0 (Inline "services: {}")
  ≠ resolved_path Sample.overlay 2 (Inline "version: '3.9'").
Proof.
  assert (0 ≠ 2) as Hne by lia.
  split; [exact Hne|].
  exact (file_names_do_not_collide Sample.overlay 0 2 _ _
           (λ directory a b _ _, sample_join_inj directory a b) Hne).
Defined.

Lemma joinArgumentsRecord_insertion_order_witness :
  Forall (λ kv : string * value, array_index kv.1 = None)
    [("B", VStr "2"); ("A", VStr "1")] ∧
  _joinArgumentsRecord "--env" SepEquals [("B", VStr "2"); ("A", VStr "1")]
  = ["--env"; "B=2"; "--env"; "A=1"].
Proof.
  assert (Forall (λ kv : string * value, array_index kv.1 = None)
            [("B", VStr "2"); ("A", VStr "1")]) as Hnone.
  { repeat constructor. }
  split; [exact Hnone|].
  exact (joinArgumentsRecord_insertion_order "--env" SepEquals _ Hnone).
Defined.

Lemma up_detach_flag_iff_awaited_witness :
  _getGlobalArguments Sample.overlay [] =
    (Fulfilled overlay_global_arguments, overlay_writes) ∧
  ("--detach" ∉ up_arguments attached) ∧
  ∀ child, child = spawned overlay_writes overlay_global_arguments
                     (up_arguments attached) None →
           EvAwait child ∉ (up Sample.overlay (Some attached) None []).2.
Proof.
  split; [exact overlay_resolves|].
  pose proof (up_detach_flag_iff_awaited Sample.overlay (Some attached) None []
                _ _ overlay_resolves) as Hiff.
  cbv zeta in Hiff.
  assert ("--detach" ∉ up_arguments attached) as Hflag.
  { intros Hin. apply elem_of_cons in Hin as [Hin|Hin]; [discriminate Hin|].
    by apply elem_of_nil in Hin. }
  split; [exact Hflag|].
  intros child -> Hawait. apply Hflag. apply Hiff. exact Hawait.
Defined.


Lemma src_index_up_awaits_iff_detach_witness :
  _getGlobalArguments Sample.overlay [] =
    (Fulfilled overlay_global_arguments, overlay_writes) ∧
  SrcIndex.up_detach SrcIndex.UpOptions_empty ≠ Some true ∧
  ("--detach" ∉ SrcIndex.up_arguments SrcIndex.UpOptions_empty) ∧
  (SrcIndex.up Sample.overlay None []).1 = Fulfilled tt.
Proof.
  split; [exact overlay_resolves|].
  assert (SrcIndex.up_detach SrcIndex.UpOptions_empty ≠ Some true) as Hne.
  { discriminate. }
  split; [exact Hne|].
  destruct (src_index_up_awaits_iff_detach Sample.overlay None [] _ _
              overlay_resolves) as [_ Hattached].
  destruct (Hattached Hne) as [Hrun Hflag].
  split; [exact Hflag|]. rewrite Hrun. reflexivity.
Defined.


Lemma up_flags_independent_witness :
  (("--no-recreate", up_noRecreate) ∈ up_boolean_flags) ∧
  up_forceRecreate conflicting = Some true ∧
  up_noRecreate conflicting = Some true ∧
  "--no-recreate" ∈ up_arguments conflicting.
Proof.
  assert (("--no-recreate", up_noRecreate) ∈ up_boolean_flags) as Htable.
  { apply (list_elem_of_lookup_2 _ 8). reflexivity. }
  split; [exact Htable|]. split; [reflexivity|]. split; [reflexivity|].
  apply (up_flags_independent conflicting _ _ Htable). reflexivity.
Defined.
